(** * proglog: the storage engine of the commit log (store and segment)

    A shallow embedding of [internal/log/store.go] and
    [internal/log/segment.go], together with the parts of the Go standard
    library they stand on ([os.File], [bufio.Writer], [encoding/binary]).

    Machine integers are [Z] with their wrap-around written out, byte
    slices are [list byte], and every method that mutates its receiver
    returns the new receiver next to its Go results.  The mutex of the
    store is not modelled: the development is about one call at a time. *)

From Stdlib Require Import ZArith List Lia Bool.
From Stdlib Require Import Strings.Byte.
Import ListNotations.
Open Scope Z_scope.

(** ** Go values: fixed-width integers, errors, results *)

Definition wrap64 (z : Z) : Z := z mod 2 ^ 64.
Definition wrap32 (z : Z) : Z := z mod 2 ^ 32.

(** Conversion of a 64-bit pattern to the signed types [int] and [int64]. *)
Definition to_int64 (z : Z) : Z :=
  let w := wrap64 z in if w <? 2 ^ 63 then w else w - 2 ^ 64.

Inductive error : Set :=
| EOF                 (* io.EOF *)
| ErrShortWrite       (* io.ErrShortWrite *)
| ErrNegativeOffset   (* os: "negative offset" *)
| ErrIO               (* a failed system call: write, stat, open, mmap *)
| ErrMarshal          (* proto: the record cannot be encoded or decoded *)
| ErrNotFound.        (* the index has no such entry *)

(** What a call yields: its values, an error, or a run-time panic. *)
Inductive result (A : Type) : Type :=
| Ok (a : A)
| Err (e : error)
| Panic.
Arguments Ok {A} a.
Arguments Err {A} e.
Arguments Panic {A}.

Definition byte_of_Z (z : Z) : byte :=
  match Byte.of_N (Z.to_N (z mod 256)) with
  | Some b => b
  | None => x00
  end.
Definition Z_of_byte (b : byte) : Z := Z.of_N (Byte.to_N b).

(** ** package os: a file *)
Module os.

(** The bytes on disk, and the fate of the write system calls to come:
    [None] is a write that goes through, [Some k] one that fails after
    [k] bytes at most; when the list is used up every write goes through.
    The store file is opened with O_APPEND, so a write lands at the end.
    [statErr] is what [os.Stat] of the file's name reports. *)
Record File : Type := {
  fdata : list byte;
  wfaults : list (option nat);
  statErr : option error
}.

Definition Write (f : File) (b : list byte) : nat * option error * File :=
  match wfaults f with
  | Some k :: rest =>
      let n := Nat.min k (length b) in
      (n, Some ErrIO,
       {| fdata := fdata f ++ firstn n b; wfaults := rest; statErr := statErr f |})
  | None :: rest =>
      (length b, None,
       {| fdata := fdata f ++ b; wfaults := rest; statErr := statErr f |})
  | [] =>
      (length b, None,
       {| fdata := fdata f ++ b; wfaults := []; statErr := statErr f |})
  end.

(** [ReadAt] of a buffer of [len] bytes: the bytes read, and [EOF] when
    they are fewer than [len]. *)
Definition ReadAt (f : File) (len : nat) (off : Z) : list byte * option error :=
  if off <? 0 then ([], Some ErrNegativeOffset)
  else
    let got := firstn len (skipn (Z.to_nat off) (fdata f)) in
    if (length got <? len)%nat then (got, Some EOF) else (got, None).

(** [os.Stat(f.Name())] followed by [fi.Size()]. *)
Definition Stat_Size (f : File) : result Z :=
  match statErr f with
  | Some e => Err e
  | None => Ok (Z.of_nat (length (fdata f)))
  end.

End os.

(** ** package bufio: the buffered writer *)
Module bufio.

Definition defaultBufSize : nat := 4096.

(** [wbuf] is [b.buf[0:b.n]], [wsize] is [len(b.buf)], [werr] the sticky
    error.  The writer's file is passed to each call and returned. *)
Record Writer : Type := {
  wbuf : list byte;
  wsize : nat;
  werr : option error
}.

Definition NewWriter : Writer :=
  {| wbuf := []; wsize := defaultBufSize; werr := None |}.

Definition Available (b : Writer) : nat := (wsize b - length (wbuf b))%nat.
Definition Buffered (b : Writer) : nat := length (wbuf b).

Definition Flush (b : Writer) (f : os.File) : option error * Writer * os.File :=
  match werr b with
  | Some e => (Some e, b, f)
  | None =>
      if (Buffered b =? 0)%nat then (None, b, f)
      else
        let '(n, err, f') := os.Write f (wbuf b) in
        let err :=
          match err with
          | None => if (n <? Buffered b)%nat then Some ErrShortWrite else None
          | Some e => Some e
          end in
        match err with
        | Some e =>
            (Some e, {| wbuf := skipn n (wbuf b); wsize := wsize b; werr := Some e |}, f')
        | None =>
            (None, {| wbuf := []; wsize := wsize b; werr := None |}, f')
        end
  end.

(** The loop of [Writer.Write]: while [p] does not fit and no error is
    pending, either write [p] straight to the file (empty buffer) or fill
    the buffer and flush it.  [nn] counts the bytes taken from [p]. *)
Fixpoint Write_loop (fuel : nat) (b : Writer) (f : os.File) (p : list byte) (nn : nat)
  : Writer * os.File * list byte * nat :=
  match fuel with
  | O => (b, f, p, nn)
  | S fuel' =>
      match werr b with
      | Some _ => (b, f, p, nn)
      | None =>
          if (Available b <? length p)%nat then
            if (Buffered b =? 0)%nat then
              let '(n, err, f') := os.Write f p in
              Write_loop fuel'
                {| wbuf := wbuf b; wsize := wsize b; werr := err |} f'
                (skipn n p) (nn + n)
            else
              let n := Nat.min (Available b) (length p) in
              let b1 := {| wbuf := wbuf b ++ firstn n p; wsize := wsize b; werr := werr b |} in
              let '(_, b2, f2) := Flush b1 f in
              Write_loop fuel' b2 f2 (skipn n p) (nn + n)
          else (b, f, p, nn)
      end
  end.

(** Two rounds are all the loop can make (see [Write_loop_fuel]): a
    round that fills and flushes leaves the buffer empty, and a direct
    write either takes the whole of [p] or leaves an error. *)
Definition Write (b : Writer) (f : os.File) (p : list byte)
  : nat * option error * Writer * os.File :=
  let '(b1, f1, p1, nn) := Write_loop 3 b f p 0 in
  match werr b1 with
  | Some e => (nn, Some e, b1, f1)
  | None =>
      let n := Nat.min (Available b1) (length p1) in
      ((nn + n)%nat, None,
       {| wbuf := wbuf b1 ++ firstn n p1; wsize := wsize b1; werr := None |}, f1)
  end.

End bufio.

(** ** package encoding/binary: big-endian 64-bit words *)
Module binary.

Definition PutUint64 (v : Z) : list byte :=
  [ byte_of_Z (Z.shiftr v 56); byte_of_Z (Z.shiftr v 48);
    byte_of_Z (Z.shiftr v 40); byte_of_Z (Z.shiftr v 32);
    byte_of_Z (Z.shiftr v 24); byte_of_Z (Z.shiftr v 16);
    byte_of_Z (Z.shiftr v 8);  byte_of_Z v ].

Definition Uint64 (b : list byte) : Z :=
  match b with
  | [b0; b1; b2; b3; b4; b5; b6; b7] =>
      Z.lor (Z_of_byte b7)
     (Z.lor (Z.shiftl (Z_of_byte b6) 8)
     (Z.lor (Z.shiftl (Z_of_byte b5) 16)
     (Z.lor (Z.shiftl (Z_of_byte b4) 24)
     (Z.lor (Z.shiftl (Z_of_byte b3) 32)
     (Z.lor (Z.shiftl (Z_of_byte b2) 40)
     (Z.lor (Z.shiftl (Z_of_byte b1) 48)
            (Z.shiftl (Z_of_byte b0) 56)))))))
  | _ => 0
  end.

(** [binary.Write(w, BigEndian, v)] for a [uint64] [v] on a buffered writer. *)
Definition Write (w : bufio.Writer) (f : os.File) (v : Z)
  : option error * bufio.Writer * os.File :=
  let '(_, err, w', f') := bufio.Write w f (PutUint64 v) in (err, w', f').

End binary.

(** ** store.go *)

Definition lenWidth : Z := 8.

(** The embedded [*os.File], the buffered writer on it, and [size]. *)
Record store : Type := {
  File : os.File;
  buf : bufio.Writer;
  size : Z
}.

Definition newStore (f : os.File) : result store :=
  match os.Stat_Size f with
  | Err e => Err e
  | Panic => Panic
  | Ok sz =>
      let size := wrap64 sz in
      Ok {| File := f; size := size; buf := bufio.NewWriter |}
  end.

(** [Append] yields [(n, pos)]. *)
Definition store_Append (s : store) (p : list byte) : result (Z * Z) * store :=
  let pos := size s in
  let '(err, b1, f1) := binary.Write (buf s) (File s) (wrap64 (Z.of_nat (length p))) in
  match err with
  | Some e => (Err e, {| File := f1; buf := b1; size := size s |})
  | None =>
      let '(w, err, b2, f2) := bufio.Write b1 f1 p in
      match err with
      | Some e => (Err e, {| File := f2; buf := b2; size := size s |})
      | None =>
          let w := to_int64 (Z.of_nat w + lenWidth) in
          (Ok (wrap64 w, pos),
           {| File := f2; buf := b2; size := wrap64 (size s + wrap64 w) |})
      end
  end.

(** [make([]byte, n)] for a [uint64] [n]: a length that is no [int]
    panics (so does, on a real machine, one beyond the memory there is). *)
Definition make_bytes (n : Z) : option nat :=
  if n <? 2 ^ 63 then Some (Z.to_nat n) else None.

Definition store_Read (s : store) (pos : Z) : result (list byte) * store :=
  let '(err, b1, f1) := bufio.Flush (buf s) (File s) in
  let s1 := {| File := f1; buf := b1; size := size s |} in
  match err with
  | Some e => (Err e, s1)
  | None =>
      let '(sz, err) := os.ReadAt f1 (Z.to_nat lenWidth) (to_int64 pos) in
      match err with
      | Some e => (Err e, s1)
      | None =>
          match make_bytes (binary.Uint64 sz) with
          | None => (Panic, s1)
          | Some len =>
              let '(b, err) := os.ReadAt f1 len (to_int64 (wrap64 (pos + lenWidth))) in
              match err with
              | Some e => (Err e, s1)
              | None => (Ok b, s1)
              end
          end
      end
  end.

(** [ReadAt] on a buffer of [len] bytes yields the bytes read and the error. *)
Definition store_ReadAt (s : store) (len : nat) (off : Z)
  : list byte * option error * store :=
  let '(err, b1, f1) := bufio.Flush (buf s) (File s) in
  let s1 := {| File := f1; buf := b1; size := size s |} in
  match err with
  | Some e => ([], Some e, s1)
  | None => let '(b, err) := os.ReadAt f1 len off in (b, err, s1)
  end.

(** [Close]: flush, then close the file.  [closeErr] is what closing the
    descriptor reports. *)
Definition store_Close (s : store) (closeErr : option error) : option error * store :=
  let '(err, b1, f1) := bufio.Flush (buf s) (File s) in
  let s1 := {| File := f1; buf := b1; size := size s |} in
  match err with
  | Some e => (Some e, s1)
  | None => (closeErr, s1)
  end.

(** ** The record, the configuration and the index

    [api.Record] is generated code and [Config] and [index] live in
    files of the package that are not part of this development; they are
    taken from the design document. *)

(** Modelled from the spec: the record of [api/v1], an opaque payload
    plus the [Offset] (unsigned 64-bit) the engine assigns at append time. *)
Record api_Record : Type := {
  Value : list byte;
  Offset : Z
}.

(** [proto.Marshal] and [proto.Unmarshal] on records: the wire format is
    a capability of the record type, not something the engine looks into. *)
Class proto : Type := {
  Marshal : api_Record -> result (list byte);
  Unmarshal : list byte -> result api_Record
}.

(** A fixed-layout format to run the model with: the offset as a
    big-endian word, then the payload. *)
Definition fixed_Marshal (r : api_Record) : result (list byte) :=
  Ok (binary.PutUint64 (Offset r) ++ Value r).
Definition fixed_Unmarshal (p : list byte) : result api_Record :=
  if (length p <? 8)%nat then Err ErrMarshal
  else Ok {| Value := skipn 8 p; Offset := binary.Uint64 (firstn 8 p) |}.
Definition fixed_proto : proto :=
  {| Marshal := fixed_Marshal; Unmarshal := fixed_Unmarshal |}.

(** Modelled from the spec: the configuration surface, [Segment.MaxStoreBytes],
    [Segment.MaxIndexBytes] and the optional [InitialOffset]. *)
Record SegmentConfig : Type := {
  MaxStoreBytes : Z;
  MaxIndexBytes : Z;
  InitialOffset : Z
}.
Record Config : Type := { Segment : SegmentConfig }.

(** Modelled from the spec: the width of an index entry, a 4-byte offset
    plus an 8-byte position. *)
Definition entWidth : Z := 12.

(** Modelled from the spec: the index, a fixed-width array of entries
    (segment-relative offset, position in the store) in append order, in
    a map of [mapped] bytes, the configured maximum capacity. *)
Record index : Type := {
  entries : list (Z * Z);
  mapped : Z
}.

(** Modelled from the spec: the logical size of the index, count times
    entry width (the field [size] that [IsMaxed] reads). *)
Definition index_size (i : index) : Z := entWidth * Z.of_nat (length (entries i)).

(** Modelled from the spec: [index.Write] appends one entry at the logical
    end and fails if the map has no remaining capacity. *)
Definition index_Write (i : index) (off pos : Z) : option error * index :=
  if mapped i <? index_size i + entWidth then (Some EOF, i)
  else (None, {| entries := entries i ++ [(off, pos)]; mapped := mapped i |}).

(** Modelled from the spec: [index.Read(n)]; [n = -1] is the last entry,
    [n >= 0] the n-th; it fails with the not-found condition on an empty
    index and when [n] is out of [0, entryCount). *)
Definition index_Read (i : index) (n : Z) : result (Z * Z) :=
  if n =? -1 then
    match rev (entries i) with
    | [] => Err ErrNotFound
    | e :: _ => Ok e
    end
  else if (0 <=? n) && (n <? Z.of_nat (length (entries i))) then
    match nth_error (entries i) (Z.to_nat n) with
    | Some e => Ok e
    | None => Err ErrNotFound
    end
  else Err ErrNotFound.

(** Modelled from the spec: an index file on disk, truncated to its
    logical size by a clean close, and what mapping it fails with. *)
Record IndexFile : Type := {
  ients : list (Z * Z);
  mapErr : option error
}.

(** Modelled from the spec: [newIndex] sizes the file to the configured
    capacity and maps it; the entries already in the file are the index. *)
Definition newIndex (f : IndexFile) (c : Config) : result index :=
  match mapErr f with
  | Some e => Err e
  | None => Ok {| entries := ients f; mapped := MaxIndexBytes (Segment c) |}
  end.

(** ** The directory of a log

    The files [<baseOffset>.store] and [<baseOffset>.index] that are
    there, and the names [os.OpenFile] fails on. *)
Record Dir : Type := {
  store_file : Z -> option os.File;
  index_file : Z -> option IndexFile;
  open_store_err : Z -> option error;
  open_index_err : Z -> option error
}.

(** [os.OpenFile(path.Join(dir, "<baseOffset>.store"), O_RDWR|O_CREATE|O_APPEND, 0644)] *)
Definition OpenFile_store (dir : Dir) (baseOffset : Z) : result os.File :=
  match open_store_err dir baseOffset with
  | Some e => Err e
  | None =>
      match store_file dir baseOffset with
      | Some f => Ok f
      | None => Ok {| os.fdata := []; os.wfaults := []; os.statErr := None |}
      end
  end.

(** [os.OpenFile(path.Join(dir, "<baseOffset>.index"), O_RDWR|O_CREATE, 0644)] *)
Definition OpenFile_index (dir : Dir) (baseOffset : Z) : result IndexFile :=
  match open_index_err dir baseOffset with
  | Some e => Err e
  | None =>
      match index_file dir baseOffset with
      | Some f => Ok f
      | None => Ok {| ients := []; mapErr := None |}
      end
  end.

(** ** segment.go *)

Record segment : Type := {
  s_store : store;
  s_index : index;
  baseOffset : Z;
  nextOffset : Z;
  config : Config
}.

Definition bind {A B} (r : result A) (k : A -> result B) : result B :=
  match r with
  | Ok a => k a
  | Err e => Err e
  | Panic => Panic
  end.
Notation "x <- r ;; k" := (bind r (fun x => k))
  (at level 61, r at next level, right associativity).

Definition newSegment (dir : Dir) (baseOffset : Z) (c : Config) : result segment :=
  storeFile <- OpenFile_store dir baseOffset ;;
  st <- newStore storeFile ;;
  indexFile <- OpenFile_index dir baseOffset ;;
  idx <- newIndex indexFile c ;;
  match index_Read idx (-1) with
  | Err _ =>
      Ok {| s_store := st; s_index := idx; baseOffset := baseOffset;
            nextOffset := baseOffset; config := c |}
  | Ok (off, _) =>
      Ok {| s_store := st; s_index := idx; baseOffset := baseOffset;
            nextOffset := wrap64 (baseOffset + off + 1); config := c |}
  | Panic => Panic
  end.

Definition with_store (s : segment) (st : store) : segment :=
  {| s_store := st; s_index := s_index s; baseOffset := baseOffset s;
     nextOffset := nextOffset s; config := config s |}.

(** [Append] yields the offset, the segment, and the caller's record,
    whose [Offset] it has set. *)
Definition segment_Append {P : proto} (s : segment) (record : api_Record)
  : result Z * segment * api_Record :=
  let cur := nextOffset s in
  let record := {| Value := Value record; Offset := cur |} in
  match Marshal record with
  | Err e => (Err e, s, record)
  | Panic => (Panic, s, record)
  | Ok p =>
      match store_Append (s_store s) p with
      | (Err e, st) => (Err e, with_store s st, record)
      | (Panic, st) => (Panic, with_store s st, record)
      | (Ok (_, pos), st) =>
          match index_Write (s_index s)
                  (wrap32 (wrap64 (nextOffset s - baseOffset s))) pos with
          | (Some e, idx) =>
              (Err e,
               {| s_store := st; s_index := idx; baseOffset := baseOffset s;
                  nextOffset := nextOffset s; config := config s |}, record)
          | (None, idx) =>
              (Ok cur,
               {| s_store := st; s_index := idx; baseOffset := baseOffset s;
                  nextOffset := wrap64 (nextOffset s + 1); config := config s |}, record)
          end
      end
  end.

Definition segment_Read {P : proto} (s : segment) (off : Z) : result api_Record * segment :=
  match index_Read (s_index s) (to_int64 (wrap64 (off - baseOffset s))) with
  | Err e => (Err e, s)
  | Panic => (Panic, s)
  | Ok (_, pos) =>
      match store_Read (s_store s) pos with
      | (Err e, st) => (Err e, with_store s st)
      | (Panic, st) => (Panic, with_store s st)
      | (Ok p, st) => (Unmarshal p, with_store s st)
      end
  end.

Definition segment_IsMaxed (s : segment) : bool :=
  (MaxStoreBytes (Segment (config s)) <=? size (s_store s)) ||
  (MaxIndexBytes (Segment (config s)) <=? index_size (s_index s)).

(** Both operands are [uint64]; division by zero panics. *)
Definition nearestMultiple (j k : Z) : result Z :=
  if 0 <=? j then
    if k =? 0 then Panic else Ok (wrap64 ((j / k) * k))
  else
    if k =? 0 then Panic else Ok (wrap64 ((wrap64 (wrap64 (j - k) + 1) / k) * k)).

(** ** Properties the theorems are about *)

(** Every byte handed to the store so far: what is in the file followed
    by what is still in the write buffer. *)
Definition content (s : store) : list byte :=
  os.fdata (File s) ++ bufio.wbuf (buf s).

(** The size invariant of the store, in the arithmetic of [uint64]:
    [size] is the flushed file length plus the buffered bytes. *)
Definition store_inv (s : store) : Prop :=
  size s = wrap64 (Z.of_nat (length (os.fdata (File s))) +
                   Z.of_nat (length (bufio.wbuf (buf s)))).

(** An entry of the store: the big-endian length prefix, then the payload. *)
Definition frame (p : list byte) : list byte :=
  binary.PutUint64 (wrap64 (Z.of_nat (length p))) ++ p.

(** [store_later s s']: [s'] is [s] after some successful appends, reads
    and raw reads, in any order. *)
Inductive store_later : store -> store -> Prop :=
| later_refl s : store_later s s
| later_Append s q n pos s1 s2 :
    store_Append s q = (Ok (n, pos), s1) -> store_later s1 s2 -> store_later s s2
| later_Read s pos r s1 s2 :
    store_Read s pos = (r, s1) -> store_later s1 s2 -> store_later s s2
| later_ReadAt s len off b e s1 s2 :
    store_ReadAt s len off = (b, e, s1) -> store_later s1 s2 -> store_later s s2.

(** [seg_appends s offs s']: successful appends, one after the other,
    take [s] to [s'] and return the offsets [offs]. *)
Inductive seg_appends {P : proto} : segment -> list Z -> segment -> Prop :=
| appends_nil s : seg_appends s [] s
| appends_cons s r off s1 r' offs s2 :
    segment_Append s r = (Ok off, s1, r') ->
    seg_appends s1 offs s2 ->
    seg_appends s (off :: offs) s2.

(** The offsets of a segment are those of its index entries:
    [nextOffset] is [baseOffset] plus the number of entries, within [uint64]. *)
Definition segment_inv (s : segment) : Prop :=
  0 <= baseOffset s /\
  nextOffset s = baseOffset s + Z.of_nat (length (entries (s_index s))) /\
  nextOffset s < 2 ^ 64.

(** [m] is a multiple of [k]. *)
Definition multiple_of (k m : Z) : Prop := exists q, m = q * k.

(** [store_trace s s']: [s'] is [s] after any calls of [Append], [Read]
    and [ReadAt], whatever they returned. *)
Inductive store_trace : store -> store -> Prop :=
| trace_refl s : store_trace s s
| trace_Append s q r s1 s2 :
    store_Append s q = (r, s1) -> store_trace s1 s2 -> store_trace s s2
| trace_Read s pos r s1 s2 :
    store_Read s pos = (r, s1) -> store_trace s1 s2 -> store_trace s s2
| trace_ReadAt s len off b e s1 s2 :
    store_ReadAt s len off = (b, e, s1) -> store_trace s1 s2 -> store_trace s s2.

(** The loop condition of [Writer.Write] is false. *)
Definition Write_done (b : bufio.Writer) (p : list byte) : Prop :=
  bufio.werr b <> None \/ (length p <= bufio.Available b)%nat.

(** A store is sound when its size invariant holds, and spent when its
    writer carries an error: a spent store fails every call. *)
Definition store_ok (s : store) : Prop :=
  store_inv s \/ bufio.werr (buf s) <> None.

(** [store.Read] and [store.ReadAt] begin with this flush. *)
Definition flushed (s : store) : option error * store :=
  let '(err, b1, f1) := bufio.Flush (buf s) (File s) in
  (err, {| File := f1; buf := b1; size := size s |}).

(** [seg_trace s s']: [s'] is [s] after any calls of [Append] and [Read],
    whatever they returned. *)
Inductive seg_trace {P : proto} : segment -> segment -> Prop :=
| seg_trace_refl s : seg_trace s s
| seg_trace_Append s r res s1 r' s2 :
    segment_Append s r = (res, s1, r') -> seg_trace s1 s2 -> seg_trace s s2
| seg_trace_Read s off res s1 s2 :
    segment_Read s off = (res, s1) -> seg_trace s1 s2 -> seg_trace s s2.

(** A segment in order: its offsets are those of its index entries, the
    k-th entry carries the relative offset k (as a [uint32]), and its
    store is sound or spent. *)
Definition segment_wf (s : segment) : Prop :=
  segment_inv s /\
  store_ok (s_store s) /\
  forall k e, nth_error (entries (s_index s)) k = Some e -> fst e = wrap32 (Z.of_nat k).

(** ** Concrete stores and segments to run the model on *)

Definition no_file : os.File :=
  {| os.fdata := []; os.wfaults := []; os.statErr := None |}.

(** An empty file whose first write system call stops after 100 bytes. *)
Definition faulty_file : os.File :=
  {| os.fdata := []; os.wfaults := [Some 100%nat]; os.statErr := None |}.

Definition store_on (f : os.File) : store :=
  {| File := f; buf := bufio.NewWriter; size := Z.of_nat (length (os.fdata f)) |}.

Definition hello : list byte := [x68; x65; x6c; x6c; x6f].
Definition world : list byte := [x77; x6f; x72; x6c; x64].
Definition big_payload : list byte := repeat x2e 4089.

(** The store after the appends of [ps], results dropped. *)
Definition appended (s : store) (ps : list (list byte)) : store :=
  fold_left (fun s p => snd (store_Append s p)) ps s.

Definition empty_dir : Dir :=
  {| store_file := fun _ => None; index_file := fun _ => None;
     open_store_err := fun _ => None; open_index_err := fun _ => None |}.

Definition config_of (maxStore maxIndex : Z) : Config :=
  {| Segment := {| MaxStoreBytes := maxStore; MaxIndexBytes := maxIndex;
                   InitialOffset := 0 |} |}.

Definition fresh_segment (base : Z) (c : Config) : segment :=
  {| s_store := store_on no_file;
     s_index := {| entries := []; mapped := MaxIndexBytes (Segment c) |};
     baseOffset := base; nextOffset := base; config := c |}.

Definition record_of (v : list byte) : api_Record := {| Value := v; Offset := 0 |}.

(** The segment after the appends of the payloads [vs], results dropped. *)
Definition seg_appended (s : segment) (vs : list (list byte)) : segment :=
  fold_left (fun s v => snd (fst (segment_Append (P := fixed_proto) s (record_of v)))) vs s.

(** A directory that holds the index of a one-record segment whose base
    offset is the largest [uint64]. *)
Definition last_offset_dir : Dir :=
  {| store_file := fun _ => None;
     index_file := fun b =>
       if b =? 2 ^ 64 - 1 then Some {| ients := [(0, 0)]; mapErr := None |} else None;
     open_store_err := fun _ => None; open_index_err := fun _ => None |}.

(** What [newSegment] returns on [last_offset_dir]. *)
Definition wrapped_segment : segment :=
  {| s_store := store_on no_file;
     s_index := {| entries := [(0, 0)]; mapped := 1024 |};
     baseOffset := 2 ^ 64 - 1; nextOffset := 0; config := config_of 1024 1024 |}.

(** A directory that holds the index file of a segment with base offset
    5 and two records, and the segment [newSegment] makes of it. *)
Definition two_record_dir : Dir :=
  {| store_file := fun _ => None;
     index_file := fun b =>
       if b =? 5 then Some {| ients := [(0, 0); (1, 21)]; mapErr := None |} else None;
     open_store_err := fun _ => None; open_index_err := fun _ => None |}.

Definition reopened_segment : segment :=
  {| s_store := store_on no_file;
     s_index := {| entries := [(0, 0); (1, 21)]; mapped := 1024 |};
     baseOffset := 5; nextOffset := 7; config := config_of 1024 1024 |}.

(** * Lemmas *)

(** ** Integers and bytes *)

Lemma Z_of_byte_of_Z z : Z_of_byte (byte_of_Z z) = z mod 256.
Proof.
  unfold Z_of_byte, byte_of_Z.
  assert (Hr : 0 <= z mod 256 < 256) by (apply Z.mod_pos_bound; lia).
  destruct (Byte.of_N (Z.to_N (z mod 256))) as [b|] eqn:E.
  - apply Byte.to_of_N in E. rewrite E. rewrite Z2N.id; lia.
  - apply Byte.of_N_None_iff in E. lia.
Qed.

Lemma testbit_mod256 z i : 0 <= i ->
  Z.testbit (z mod 256) i = (i <? 8) && Z.testbit z i.
Proof.
  intros Hi. change 256 with (2 ^ 8).
  destruct (Z.ltb_spec i 8).
  - rewrite Z.mod_pow2_bits_low by lia. reflexivity.
  - rewrite Z.mod_pow2_bits_high by lia. reflexivity.
Qed.

Lemma testbit_byte_at v k i : 0 <= k -> 0 <= i ->
  Z.testbit (Z.shiftr v k mod 256) (i - k) =
  (k <=? i) && (i <? k + 8) && Z.testbit v i.
Proof.
  intros Hk Hi.
  destruct (Z.leb_spec k i) as [Hle|Hgt]; simpl.
  - rewrite testbit_mod256 by lia. rewrite Z.shiftr_spec by lia.
    replace (i - k + k) with i by lia.
    destruct (Z.ltb_spec (i - k) 8), (Z.ltb_spec i (k + 8)); try lia; reflexivity.
  - apply Z.testbit_neg_r. lia.
Qed.

Lemma Uint64_PutUint64 v : 0 <= v < 2 ^ 64 ->
  binary.Uint64 (binary.PutUint64 v) = v.
Proof.
  intros Hv. unfold binary.PutUint64, binary.Uint64.
  rewrite !Z_of_byte_of_Z.
  apply Z.bits_inj'. intros i Hi.
  rewrite !Z.lor_spec.
  rewrite !Z.shiftl_spec by lia.
  rewrite !testbit_byte_at by lia.
  rewrite testbit_mod256 by lia.
  destruct (Z.ltb_spec i 64) as [Hlt|Hge].
  - assert (Hc : i < 8 \/ 8 <= i < 16 \/ 16 <= i < 24 \/ 24 <= i < 32 \/
                 32 <= i < 40 \/ 40 <= i < 48 \/ 48 <= i < 56 \/ 56 <= i < 64) by lia.
    destruct (Z.testbit v i); rewrite ?andb_false_r; [|reflexivity].
    rewrite !andb_true_r.
    decompose [or] Hc; clear Hc;
    repeat match goal with
           | |- context [?a <=? ?b] =>
               first [ rewrite (proj2 (Z.leb_le a b)) by lia
                     | rewrite (proj2 (Z.leb_gt a b)) by lia ]
           | |- context [?a <? ?b] =>
               first [ rewrite (proj2 (Z.ltb_lt a b)) by lia
                     | rewrite (proj2 (Z.ltb_ge a b)) by lia ]
           end; reflexivity.
  - assert (Hz : Z.testbit v i = false).
    { destruct (Z.eq_dec v 0) as [->|Hn]; [apply Z.bits_0|].
      apply Z.bits_above_log2; [lia|].
      apply Z.lt_le_trans with 64; [|lia].
      apply Z.log2_lt_pow2; lia. }
    rewrite Hz. rewrite !andb_false_r. reflexivity.
Qed.

(** ** The file and the buffered writer *)

Lemma os_Write_spec f p n err f' :
  os.Write f p = (n, err, f') ->
  os.fdata f' = os.fdata f ++ firstn n p /\ (n <= length p)%nat /\
  (err = None -> n = length p) /\ os.statErr f' = os.statErr f.
Proof.
  unfold os.Write. intros H.
  destruct (os.wfaults f) as [|[k|] rest]; inversion H; subst; clear H; simpl;
    rewrite ?firstn_all; repeat split; auto; try lia; try discriminate.
Qed.

Lemma Flush_spec b f err b' f' :
  bufio.Flush b f = (err, b', f') ->
  os.fdata f' ++ bufio.wbuf b' = os.fdata f ++ bufio.wbuf b /\
  bufio.wsize b' = bufio.wsize b /\
  bufio.werr b' = err /\
  (err = None -> bufio.wbuf b' = []) /\
  (bufio.werr b <> None -> b' = b /\ f' = f) /\
  os.statErr f' = os.statErr f.
Proof.
  unfold bufio.Flush, bufio.Buffered. intros H.
  destruct (bufio.werr b) as [e|] eqn:Ee.
  { inversion H; subst. repeat split; auto. discriminate. }
  destruct (Nat.eqb_spec (length (bufio.wbuf b)) 0) as [Hz|Hnz].
  { inversion H; subst. repeat split; auto; try congruence.
    intros _. now apply length_zero_iff_nil. }
  destruct (os.Write f (bufio.wbuf b)) as [[n werr] f1] eqn:Ew.
  apply os_Write_spec in Ew. destruct Ew as (Hd & Hn & Hall & Hst).
  assert (Hsplit : os.fdata f1 ++ skipn n (bufio.wbuf b) = os.fdata f ++ bufio.wbuf b).
  { rewrite Hd, <- app_assoc, firstn_skipn. reflexivity. }
  destruct werr as [e|].
  - inversion H; subst; simpl. repeat split; auto; try discriminate; try congruence.
  - specialize (Hall eq_refl). subst n.
    rewrite Nat.ltb_irrefl in H. inversion H; subst; simpl.
    rewrite skipn_all in Hsplit.
    repeat split; auto; congruence.
Qed.


Lemma Write_loop_done fuel b f p nn :
  Write_done b p -> bufio.Write_loop fuel b f p nn = (b, f, p, nn).
Proof.
  intros Hd. destruct fuel; simpl; [reflexivity|].
  destruct (bufio.werr b) eqn:E; [reflexivity|].
  destruct Hd as [Hd|Hd]; [congruence|].
  destruct (Nat.ltb_spec (bufio.Available b) (length p)); [lia|reflexivity].
Qed.

Lemma Write_loop_direct_done f p n err f' b :
  os.Write f p = (n, err, f') ->
  Write_done {| bufio.wbuf := bufio.wbuf b; bufio.wsize := bufio.wsize b; bufio.werr := err |}
             (skipn n p).
Proof.
  intros Hw. apply os_Write_spec in Hw. destruct Hw as (_ & _ & Hall & _).
  destruct err as [e|].
  - left. simpl. discriminate.
  - right. rewrite (Hall eq_refl), skipn_all. simpl. lia.
Qed.

Lemma Write_loop_eq fuel b f p nn :
  bufio.Write_loop (S fuel) b f p nn =
  match bufio.werr b with
  | Some _ => (b, f, p, nn)
  | None =>
      if (bufio.Available b <? length p)%nat then
        if (bufio.Buffered b =? 0)%nat then
          let '(n, err, f') := os.Write f p in
          bufio.Write_loop fuel
            {| bufio.wbuf := bufio.wbuf b; bufio.wsize := bufio.wsize b; bufio.werr := err |} f'
            (skipn n p) (nn + n)
        else
          let n := Nat.min (bufio.Available b) (length p) in
          let b1 := {| bufio.wbuf := bufio.wbuf b ++ firstn n p;
                       bufio.wsize := bufio.wsize b; bufio.werr := bufio.werr b |} in
          let '(_, b2, f2) := bufio.Flush b1 f in
          bufio.Write_loop fuel b2 f2 (skipn n p) (nn + n)
      else (b, f, p, nn)
  end.
Proof. reflexivity. Qed.

(** With an empty buffer one round is enough. *)
Lemma Write_loop_empty k b f p nn :
  bufio.Buffered b = 0%nat ->
  bufio.Write_loop (S k) b f p nn = bufio.Write_loop 1 b f p nn.
Proof.
  intros Hb. rewrite !Write_loop_eq, Hb. cbn [Nat.eqb].
  destruct (bufio.werr b); [reflexivity|].
  destruct (bufio.Available b <? length p)%nat; [|reflexivity].
  destruct (os.Write f p) as [[n err] f1] eqn:Ew.
  pose proof (Write_loop_direct_done _ _ _ _ _ b Ew) as Hd.
  rewrite (Write_loop_done k), (Write_loop_done 0) by exact Hd. reflexivity.
Qed.

Lemma Write_loop_fuel k b f p nn :
  bufio.Write_loop (S (S k)) b f p nn = bufio.Write_loop 2 b f p nn.
Proof.
  rewrite (Write_loop_eq (S k)), (Write_loop_eq 1).
  destruct (bufio.werr b) eqn:Ee; [reflexivity|].
  destruct (bufio.Available b <? length p)%nat; [|reflexivity].
  destruct (bufio.Buffered b =? 0)%nat.
  - destruct (os.Write f p) as [[n err] f1] eqn:Ew.
    pose proof (Write_loop_direct_done _ _ _ _ _ b Ew) as Hd.
    rewrite (Write_loop_done (S k)), (Write_loop_done 1) by exact Hd. reflexivity.
  - cbv zeta.
    match goal with |- context [bufio.Flush ?b1 f] =>
      destruct (bufio.Flush b1 f) as [[e b2] f2] eqn:Ef end.
    apply Flush_spec in Ef. destruct Ef as (_ & _ & Herr & Hemp & _).
    destruct e as [e|].
    + rewrite (Write_loop_done (S k)), (Write_loop_done 1) by (left; congruence).
      reflexivity.
    + apply Write_loop_empty. unfold bufio.Buffered. rewrite Hemp; reflexivity.
Qed.

(** What the loop leaves: nothing is lost, [nn] counts what was taken,
    and with two rounds or more the loop condition is false at the end. *)
Lemma Write_loop_spec fuel b f p nn b1 f1 p1 nn1 :
  bufio.Write_loop fuel b f p nn = (b1, f1, p1, nn1) ->
  os.fdata f1 ++ bufio.wbuf b1 ++ p1 = os.fdata f ++ bufio.wbuf b ++ p /\
  (nn1 + length p1 = nn + length p)%nat /\
  bufio.wsize b1 = bufio.wsize b /\
  os.statErr f1 = os.statErr f.
Proof.
  revert b f p nn. induction fuel as [|fuel IH]; intros b f p nn H; simpl in H.
  { inversion H; subst. auto. }
  destruct (bufio.werr b) eqn:Ee; [inversion H; subst; auto|].
  destruct (Nat.ltb_spec (bufio.Available b) (length p)) as [Hlt|Hge];
    [|inversion H; subst; auto].
  destruct (Nat.eqb_spec (bufio.Buffered b) 0) as [Hz|Hnz].
  - destruct (os.Write f p) as [[n err] f'] eqn:Ew.
    apply IH in H. cbn [bufio.wbuf bufio.wsize] in H.
    destruct H as (Hc & Hn & Hs & Hst).
    apply os_Write_spec in Ew. destruct Ew as (Hd & Hle & _ & Hst').
    split; [|split; [|split]]; try congruence.
    + rewrite Hc, Hd. rewrite <- !app_assoc.
      f_equal. unfold bufio.Buffered in Hz. apply length_zero_iff_nil in Hz.
      rewrite Hz. simpl. apply firstn_skipn.
    + rewrite length_skipn in Hn. lia.
  - match type of H with context [bufio.Flush ?b1 f] =>
      destruct (bufio.Flush b1 f) as [[e b2] f2] eqn:Ef end.
    apply IH in H. destruct H as (Hc & Hn & Hs & Hst).
    apply Flush_spec in Ef. cbn [bufio.wbuf bufio.wsize] in Ef.
    destruct Ef as (Hfc & Hfs & _ & _ & _ & Hst').
    split; [|split; [|split]]; try congruence.
    + rewrite Hc. rewrite app_assoc, Hfc.
      rewrite <- !app_assoc. do 2 f_equal. apply firstn_skipn.
    + rewrite length_skipn in Hn.
      assert (Nat.min (bufio.Available b) (length p) <= length p)%nat by lia. lia.
Qed.

Lemma Write_loop_exit k b f p nn b1 f1 p1 nn1 :
  bufio.Write_loop (S (S k)) b f p nn = (b1, f1, p1, nn1) -> Write_done b1 p1.
Proof.
  rewrite Write_loop_fuel, Write_loop_eq.
  destruct (bufio.werr b) eqn:Ee.
  { intros H; inversion H; subst. left. congruence. }
  destruct (Nat.ltb_spec (bufio.Available b) (length p)) as [Hlt|Hge].
  2:{ intros H; inversion H; subst. right. lia. }
  destruct (bufio.Buffered b =? 0)%nat.
  - destruct (os.Write f p) as [[n err] f'] eqn:Ew.
    pose proof (Write_loop_direct_done _ _ _ _ _ b Ew) as Hd.
    rewrite Write_loop_done by exact Hd.
    intros H; inversion H; subst. exact Hd.
  - cbv zeta.
    match goal with |- context [bufio.Flush ?b1 f] =>
      destruct (bufio.Flush b1 f) as [[e b2] f2] eqn:Ef end.
    apply Flush_spec in Ef. destruct Ef as (_ & Hsz & Herr & Hemp & _).
    rewrite Write_loop_eq.
    destruct (bufio.werr b2) eqn:E2.
    { intros H; inversion H; subst. left. congruence. }
    subst e. specialize (Hemp eq_refl).
    match goal with |- context [(?a <? ?c)%nat] => destruct (Nat.ltb_spec a c) as [Hlt2|Hge2] end.
    2:{ intros H; inversion H; subst. right. lia. }
    assert (Hb0 : bufio.Buffered b2 = 0%nat) by (unfold bufio.Buffered; rewrite Hemp; reflexivity).
    rewrite Hb0. cbn [Nat.eqb].
    match goal with |- context [os.Write f2 ?q] =>
      destruct (os.Write f2 q) as [[n err] f3] eqn:Ew end.
    pose proof (Write_loop_direct_done _ _ _ _ _ b2 Ew) as Hd.
    rewrite Write_loop_done by exact Hd.
    intros H; inversion H; subst. exact Hd.
Qed.

(** [Writer.Write]: what it reports, and on success the whole of [p] is
    behind what was there. *)
Lemma bufio_Write_spec b f p n err b' f' :
  bufio.Write b f p = (n, err, b', f') ->
  bufio.werr b' = err /\
  bufio.wsize b' = bufio.wsize b /\
  os.statErr f' = os.statErr f /\
  (err = None ->
     n = length p /\
     os.fdata f' ++ bufio.wbuf b' = os.fdata f ++ bufio.wbuf b ++ p).
Proof.
  unfold bufio.Write. intros H.
  destruct (bufio.Write_loop 3 b f p 0) as [[[b1 f1] p1] nn] eqn:El.
  pose proof (Write_loop_exit _ _ _ _ _ _ _ _ _ El) as Hex.
  apply Write_loop_spec in El. destruct El as (Hc & Hn & Hs & Hst).
  destruct (bufio.werr b1) as [e|] eqn:E1.
  - inversion H; subst. repeat split; auto; discriminate.
  - inversion H; subst; clear H. cbn [bufio.werr bufio.wsize bufio.wbuf].
    destruct Hex as [Hex|Hex]; [congruence|].
    rewrite Nat.min_r by lia. rewrite firstn_all.
    split; [reflexivity|]. split; [exact Hs|]. split; [exact Hst|].
    intros _. split; [lia|]. rewrite <- Hc. reflexivity.
Qed.

Lemma bufio_Write_sticky b f p e :
  bufio.werr b = Some e -> bufio.Write b f p = (0%nat, Some e, b, f).
Proof.
  intros He. unfold bufio.Write.
  rewrite Write_loop_done by (left; congruence). rewrite He. reflexivity.
Qed.

(** ** The store *)

Lemma wrap64_small z : 0 <= z < 2 ^ 64 -> wrap64 z = z.
Proof. intros. unfold wrap64. apply Z.mod_small. assumption. Qed.

Lemma wrap64_range z : 0 <= wrap64 z < 2 ^ 64.
Proof. unfold wrap64. apply Z.mod_pos_bound. lia. Qed.

Lemma wrap64_to_int64 z : wrap64 (to_int64 z) = wrap64 z.
Proof.
  unfold to_int64. pose proof (wrap64_range z) as Hr.
  destruct (wrap64 z <? 2 ^ 63) eqn:E.
  - apply wrap64_small. exact Hr.
  - unfold wrap64 at 1.
    replace (wrap64 z - 2 ^ 64) with (wrap64 z + (-1) * 2 ^ 64) by lia.
    rewrite Z.mod_add by lia. apply wrap64_small. exact Hr.
Qed.

Lemma wrap64_add_r a b : wrap64 (a + wrap64 b) = wrap64 (a + b).
Proof. unfold wrap64. apply Zplus_mod_idemp_r. Qed.

Lemma wrap64_add_l a b : wrap64 (wrap64 a + b) = wrap64 (a + b).
Proof. unfold wrap64. apply Zplus_mod_idemp_l. Qed.

Lemma wrap64_neg z : - 2 ^ 64 <= z < 0 -> wrap64 z = z + 2 ^ 64.
Proof.
  intros Hz. unfold wrap64. rewrite <- (Z.mod_add z 1) by lia.
  apply Z.mod_small. lia.
Qed.

Lemma to_int64_small z : 0 <= z < 2 ^ 63 -> to_int64 z = z.
Proof.
  intros Hz. unfold to_int64. rewrite wrap64_small by lia.
  destruct (Z.ltb_spec z (2 ^ 63)); lia.
Qed.

Lemma length_PutUint64 v : length (binary.PutUint64 v) = 8%nat.
Proof. reflexivity. Qed.

Lemma length_frame p : length (frame p) = (8 + length p)%nat.
Proof. unfold frame. rewrite length_app, length_PutUint64. reflexivity. Qed.

(** Reading a slice that is in the file. *)
Lemma os_ReadAt_slice f pre mid post :
  os.fdata f = pre ++ mid ++ post ->
  os.ReadAt f (length mid) (Z.of_nat (length pre)) = (mid, None).
Proof.
  intros Hd. unfold os.ReadAt.
  destruct (Z.ltb_spec (Z.of_nat (length pre)) 0); [lia|].
  rewrite Nat2Z.id, Hd.
  rewrite skipn_app, skipn_all, Nat.sub_diag. simpl.
  rewrite firstn_app, firstn_all, Nat.sub_diag. simpl. rewrite app_nil_r.
  rewrite Nat.ltb_irrefl. reflexivity.
Qed.

(** *** [store.Append] *)

Lemma store_Append_Ok s p n pos s' :
  store_Append s p = (Ok (n, pos), s') ->
  pos = size s /\
  n = wrap64 (Z.of_nat (length p) + 8) /\
  size s' = wrap64 (size s + Z.of_nat (length p) + 8) /\
  content s' = content s ++ frame p /\
  bufio.werr (buf s') = None.
Proof.
  unfold store_Append, binary.Write, content, frame, lenWidth. intros H.
  destruct (bufio.Write (buf s) (File s) _) as [[[n1 e1] b1] f1] eqn:E1.
  destruct e1 as [e1|]; [discriminate|].
  destruct (bufio.Write b1 f1 p) as [[[n2 e2] b2] f2] eqn:E2.
  destruct e2 as [e2|]; [discriminate|].
  apply bufio_Write_spec in E1. destruct E1 as (_ & _ & _ & H1).
  destruct (H1 eq_refl) as (_ & Hc1).
  apply bufio_Write_spec in E2. destruct E2 as (He2 & _ & _ & H2).
  destruct (H2 eq_refl) as (Hn2 & Hc2).
  inversion H; subst; clear H. cbn [File buf size].
  rewrite wrap64_to_int64.
  split; [reflexivity|]. split; [reflexivity|]. split.
  - rewrite wrap64_add_r. f_equal. lia.
  - split; [|exact He2]. rewrite Hc2, app_assoc, Hc1, <- !app_assoc. reflexivity.
Qed.

Lemma store_Append_Err s p e s' :
  store_Append s p = (Err e, s') ->
  size s' = size s /\ bufio.werr (buf s') = Some e.
Proof.
  unfold store_Append, binary.Write. intros H.
  destruct (bufio.Write (buf s) (File s) _) as [[[n1 e1] b1] f1] eqn:E1.
  apply bufio_Write_spec in E1. destruct E1 as (He1 & _).
  destruct e1 as [e1|].
  { inversion H; subst. split; [reflexivity|exact He1]. }
  destruct (bufio.Write b1 f1 p) as [[[n2 e2] b2] f2] eqn:E2.
  apply bufio_Write_spec in E2. destruct E2 as (He2 & _).
  destruct e2 as [e2|]; [|discriminate].
  inversion H; subst. split; [reflexivity|exact He2].
Qed.

Lemma store_Append_no_Panic s p : fst (store_Append s p) <> Panic.
Proof.
  unfold store_Append, binary.Write.
  destruct (bufio.Write (buf s) (File s) _) as [[[n1 e1] b1] f1].
  destruct e1; [simpl; discriminate|].
  destruct (bufio.Write b1 f1 p) as [[[n2 e2] b2] f2].
  destruct e2; simpl; discriminate.
Qed.

(** Once the writer has failed, every append fails with the same error. *)
Lemma store_Append_sticky s p e :
  bufio.werr (buf s) = Some e -> store_Append s p = (Err e, s).
Proof.
  intros He. unfold store_Append, binary.Write.
  rewrite (bufio_Write_sticky _ _ _ e He). destruct s; reflexivity.
Qed.

(** *** Flushing, [store.Read] and [store.ReadAt] *)

Lemma flushed_spec s err s1 :
  flushed s = (err, s1) ->
  content s1 = content s /\ size s1 = size s /\
  (err = None -> os.fdata (File s1) = content s /\ bufio.wbuf (buf s1) = []).
Proof.
  unfold flushed, content. intros H.
  destruct (bufio.Flush (buf s) (File s)) as [[e b1] f1] eqn:Ef.
  inversion H; subst; clear H. cbn [File buf size].
  apply Flush_spec in Ef. destruct Ef as (Hc & _ & _ & Hemp & _).
  split; [exact Hc|]. split; [reflexivity|].
  intros Hn. specialize (Hemp Hn). split; [|exact Hemp].
  rewrite <- Hc, Hemp, app_nil_r. reflexivity.
Qed.

Lemma store_Read_flushed s pos :
  store_Read s pos =
  let '(err, s1) := flushed s in
  match err with
  | Some e => (Err e, s1)
  | None =>
      let '(sz, err) := os.ReadAt (File s1) (Z.to_nat lenWidth) (to_int64 pos) in
      match err with
      | Some e => (Err e, s1)
      | None =>
          match make_bytes (binary.Uint64 sz) with
          | None => (Panic, s1)
          | Some len =>
              let '(b, err) := os.ReadAt (File s1) len (to_int64 (wrap64 (pos + lenWidth))) in
              match err with
              | Some e => (Err e, s1)
              | None => (Ok b, s1)
              end
          end
      end
  end.
Proof.
  unfold store_Read, flushed.
  destruct (bufio.Flush (buf s) (File s)) as [[e b1] f1]. reflexivity.
Qed.

Lemma store_ReadAt_flushed s len off :
  store_ReadAt s len off =
  let '(err, s1) := flushed s in
  match err with
  | Some e => ([], Some e, s1)
  | None => let '(b, err) := os.ReadAt (File s1) len off in (b, err, s1)
  end.
Proof.
  unfold store_ReadAt, flushed.
  destruct (bufio.Flush (buf s) (File s)) as [[e b1] f1]. reflexivity.
Qed.

Lemma store_Read_keeps s pos r s' :
  store_Read s pos = (r, s') -> content s' = content s /\ size s' = size s.
Proof.
  rewrite store_Read_flushed.
  destruct (flushed s) as [err s1] eqn:Ef.
  apply flushed_spec in Ef. destruct Ef as (Hc & Hs & _).
  destruct err; [intros H; inversion H; subst; auto|].
  destruct (os.ReadAt (File s1) _ _) as [sz [e|]];
    [intros H; inversion H; subst; auto|].
  destruct (make_bytes _); [|intros H; inversion H; subst; auto].
  destruct (os.ReadAt (File s1) _ _) as [b [e|]];
    intros H; inversion H; subst; auto.
Qed.

Lemma store_ReadAt_keeps s len off b e s' :
  store_ReadAt s len off = (b, e, s') -> content s' = content s /\ size s' = size s.
Proof.
  rewrite store_ReadAt_flushed.
  destruct (flushed s) as [err s1] eqn:Ef.
  apply flushed_spec in Ef. destruct Ef as (Hc & Hs & _).
  destruct err; [intros H; inversion H; subst; auto|].
  destruct (os.ReadAt (File s1) _ _) as [b' e'].
  intros H; inversion H; subst; auto.
Qed.

(** *** The invariant *)

Lemma store_inv_content s : store_inv s <-> size s = wrap64 (Z.of_nat (length (content s))).
Proof.
  unfold store_inv, content. rewrite length_app, Nat2Z.inj_add. reflexivity.
Qed.

Lemma newStore_inv f s : newStore f = Ok s -> store_inv s.
Proof.
  unfold newStore, os.Stat_Size. destruct (os.statErr f); [discriminate|].
  intros H; inversion H; subst. unfold store_inv. cbn.
  rewrite Z.add_0_r. reflexivity.
Qed.

Lemma store_Append_inv s p n pos s' :
  store_Append s p = (Ok (n, pos), s') -> store_inv s -> store_inv s'.
Proof.
  intros H Hi. apply store_Append_Ok in H. destruct H as (_ & _ & Hs & Hc & _).
  apply store_inv_content. apply store_inv_content in Hi.
  rewrite Hs, Hc, Hi, length_app, length_frame, <- Z.add_assoc, wrap64_add_l.
  f_equal. lia.
Qed.

Lemma store_later_inv s s' : store_later s s' -> store_inv s -> store_inv s'.
Proof.
  induction 1 as [s | s q n pos s1 s2 Ha _ IH | s pos r s1 s2 Hr _ IH
                 | s len off b e s1 s2 Hr _ IH]; intros Hi.
  - exact Hi.
  - apply IH. eapply store_Append_inv; eassumption.
  - apply IH. apply store_Read_keeps in Hr. destruct Hr as (Hc & Hs).
    apply store_inv_content. apply store_inv_content in Hi. congruence.
  - apply IH. apply store_ReadAt_keeps in Hr. destruct Hr as (Hc & Hs).
    apply store_inv_content. apply store_inv_content in Hi. congruence.
Qed.

(** What was appended stays where it is: later states only add bytes. *)
Lemma store_later_content s s' :
  store_later s s' -> exists more, content s' = content s ++ more.
Proof.
  induction 1 as [s | s q n pos s1 s2 Ha _ IH | s pos r s1 s2 Hr _ IH
                 | s len off b e s1 s2 Hr _ IH].
  - exists []. rewrite app_nil_r. reflexivity.
  - destruct IH as [more Hm]. apply store_Append_Ok in Ha.
    destruct Ha as (_ & _ & _ & Hc & _).
    exists (frame q ++ more). rewrite Hm, Hc, <- app_assoc. reflexivity.
  - destruct IH as [more Hm]. apply store_Read_keeps in Hr.
    exists more. destruct Hr as (Hc & _). congruence.
  - destruct IH as [more Hm]. apply store_ReadAt_keeps in Hr.
    exists more. destruct Hr as (Hc & _). congruence.
Qed.

(** Reading the entry at the end of [pre]. *)
Lemma store_Read_frame s pre p post :
  content s = pre ++ frame p ++ post ->
  Z.of_nat (length (content s)) < 2 ^ 63 ->
  fst (store_Read s (Z.of_nat (length pre))) =
  match fst (flushed s) with
  | None => Ok p
  | Some e => Err e
  end.
Proof.
  intros Hc Hlen. rewrite store_Read_flushed.
  destruct (flushed s) as [err s1] eqn:Ef. cbn [fst].
  apply flushed_spec in Ef. destruct Ef as (_ & _ & Hfl).
  destruct err as [e|]; [reflexivity|].
  destruct (Hfl eq_refl) as (Hd & _). clear Hfl.
  rewrite Hc in Hd. rewrite Hc in Hlen.
  rewrite !length_app, length_frame in Hlen.
  unfold frame in Hd.
  assert (Hp : wrap64 (Z.of_nat (length p)) = Z.of_nat (length p))
    by (apply wrap64_small; lia).
  rewrite Hp in Hd.
  rewrite to_int64_small by lia.
  change (Z.to_nat lenWidth) with (length (binary.PutUint64 (Z.of_nat (length p)))).
  rewrite <- app_assoc in Hd.
  rewrite (os_ReadAt_slice _ _ _ _ Hd).
  rewrite Uint64_PutUint64 by lia.
  unfold make_bytes. destruct (Z.ltb_spec (Z.of_nat (length p)) (2 ^ 63)); [|lia].
  rewrite Nat2Z.id.
  unfold lenWidth. rewrite wrap64_small by lia. rewrite to_int64_small by lia.
  replace (Z.of_nat (length pre) + 8)
    with (Z.of_nat (length (pre ++ binary.PutUint64 (Z.of_nat (length p)))))
    by (rewrite length_app, length_PutUint64; lia).
  rewrite app_assoc in Hd.
  rewrite (os_ReadAt_slice _ _ _ _ Hd). reflexivity.
Qed.

Lemma firstn_plus {A} (l : list A) n k :
  firstn (n + k) l = firstn n l ++ firstn k (skipn n l).
Proof.
  revert l. induction n as [|n IH]; intros l; [reflexivity|].
  destruct l as [|a l]; simpl.
  - rewrite firstn_nil. reflexivity.
  - rewrite IH. reflexivity.
Qed.

(** The loop takes a prefix of [p] and puts it behind what was there. *)
Lemma Write_loop_taken fuel b f p nn b1 f1 p1 nn1 :
  bufio.Write_loop fuel b f p nn = (b1, f1, p1, nn1) ->
  exists k, p1 = skipn k p /\
            os.fdata f1 ++ bufio.wbuf b1 = os.fdata f ++ bufio.wbuf b ++ firstn k p.
Proof.
  revert b f p nn. induction fuel as [|fuel IH]; intros b f p nn H.
  { inversion H; subst. exists 0%nat. simpl. rewrite app_nil_r. auto. }
  rewrite Write_loop_eq in H.
  assert (Hstop : (b, f, p, nn) = (b1, f1, p1, nn1) ->
                  exists k, p1 = skipn k p /\
                    os.fdata f1 ++ bufio.wbuf b1 = os.fdata f ++ bufio.wbuf b ++ firstn k p).
  { intros E; inversion E; subst. exists 0%nat. simpl. rewrite app_nil_r. auto. }
  destruct (bufio.werr b) eqn:Ee; [auto|].
  destruct (bufio.Available b <? length p)%nat; [|auto].
  destruct (Nat.eqb_spec (bufio.Buffered b) 0) as [Hz|Hnz].
  - destruct (os.Write f p) as [[n err] f'] eqn:Ew.
    apply IH in H. cbn [bufio.wbuf] in H. destruct H as (k & Hp & Hc).
    apply os_Write_spec in Ew. destruct Ew as (Hd & _).
    exists (n + k)%nat. split.
    + rewrite Hp, skipn_skipn. f_equal. lia.
    + rewrite Hc, Hd, firstn_plus.
      unfold bufio.Buffered in Hz. apply length_zero_iff_nil in Hz. rewrite Hz.
      simpl. rewrite <- app_assoc. reflexivity.
  - cbv zeta in H.
    match type of H with context [bufio.Flush ?b1 f] =>
      destruct (bufio.Flush b1 f) as [[e b2] f2] eqn:Ef end.
    apply IH in H. destruct H as (k & Hp & Hc).
    apply Flush_spec in Ef. cbn [bufio.wbuf] in Ef. destruct Ef as (Hfc & _).
    exists (Nat.min (bufio.Available b) (length p) + k)%nat. split.
    + rewrite Hp, skipn_skipn. f_equal. lia.
    + rewrite app_assoc, Hfc in Hc. rewrite Hc, firstn_plus, <- !app_assoc. reflexivity.
Qed.

Lemma bufio_Write_extends b f p n err b' f' :
  bufio.Write b f p = (n, err, b', f') ->
  exists more, os.fdata f' ++ bufio.wbuf b' = (os.fdata f ++ bufio.wbuf b) ++ more.
Proof.
  unfold bufio.Write. intros H.
  destruct (bufio.Write_loop 3 b f p 0) as [[[b1 f1] p1] nn] eqn:El.
  apply Write_loop_taken in El. destruct El as (k & _ & Hc).
  destruct (bufio.werr b1).
  - inversion H; subst. exists (firstn k p). rewrite Hc, <- app_assoc. reflexivity.
  - inversion H; subst. cbn [bufio.wbuf].
    eexists. rewrite app_assoc, Hc, <- !app_assoc. reflexivity.
Qed.

(** Any append, failed or not, only adds bytes. *)
Lemma store_Append_extends s p r s' :
  store_Append s p = (r, s') -> exists more, content s' = content s ++ more.
Proof.
  unfold store_Append, binary.Write, content. intros H.
  destruct (bufio.Write (buf s) (File s) _) as [[[n1 e1] b1] f1] eqn:E1.
  apply bufio_Write_extends in E1. destruct E1 as (m1 & H1).
  destruct e1 as [e1|].
  { inversion H; subst. exists m1. exact H1. }
  destruct (bufio.Write b1 f1 p) as [[[n2 e2] b2] f2] eqn:E2.
  apply bufio_Write_extends in E2. destruct E2 as (m2 & H2).
  exists (m1 ++ m2).
  destruct e2; inversion H; subst; cbn [File buf]; rewrite H2, H1, <- app_assoc; reflexivity.
Qed.

Lemma store_trace_content s s' :
  store_trace s s' -> exists more, content s' = content s ++ more.
Proof.
  induction 1 as [s | s q r s1 s2 Ha _ IH | s pos r s1 s2 Hr _ IH
                 | s len off b e s1 s2 Hr _ IH].
  - exists []. rewrite app_nil_r. reflexivity.
  - destruct IH as [more Hm]. apply store_Append_extends in Ha.
    destruct Ha as [m Hc]. exists (m ++ more). rewrite Hm, Hc, <- app_assoc. reflexivity.
  - destruct IH as [more Hm]. apply store_Read_keeps in Hr.
    exists more. destruct Hr as (Hc & _). congruence.
  - destruct IH as [more Hm]. apply store_ReadAt_keeps in Hr.
    exists more. destruct Hr as (Hc & _). congruence.
Qed.


Lemma flushed_spent s :
  bufio.werr (buf s) <> None ->
  bufio.werr (buf (snd (flushed s))) <> None.
Proof.
  intros He. unfold flushed.
  destruct (bufio.Flush (buf s) (File s)) as [[e b1] f1] eqn:Ef.
  apply Flush_spec in Ef. destruct Ef as (_ & _ & _ & _ & Hsame & _).
  destruct (Hsame He) as (-> & _). exact He.
Qed.

Lemma store_Read_state s pos : snd (store_Read s pos) = snd (flushed s).
Proof.
  rewrite store_Read_flushed. destruct (flushed s) as [[e|] s1]; [reflexivity|].
  cbn [snd]. destruct (os.ReadAt (File s1) _ _) as [sz [e|]]; [reflexivity|].
  destruct (make_bytes _); [|reflexivity].
  destruct (os.ReadAt (File s1) _ _) as [b [e|]]; reflexivity.
Qed.

Lemma store_ReadAt_state s len off : snd (store_ReadAt s len off) = snd (flushed s).
Proof.
  rewrite store_ReadAt_flushed. destruct (flushed s) as [[e|] s1]; [reflexivity|].
  cbn [snd]. destruct (os.ReadAt (File s1) _ _) as [b e]. reflexivity.
Qed.

Lemma store_trace_ok s s' : store_trace s s' -> store_ok s -> store_ok s'.
Proof.
  induction 1 as [s | s q r s1 s2 Ha _ IH | s pos r s1 s2 Hr _ IH
                 | s len off b e s1 s2 Hr _ IH]; intros Hok.
  - exact Hok.
  - apply IH. destruct r as [[n pos]|e|].
    + destruct Hok as [Hi|He].
      * left. eapply store_Append_inv; eassumption.
      * destruct (bufio.werr (buf s)) as [e|] eqn:Ee; [|congruence].
        rewrite (store_Append_sticky _ _ _ Ee) in Ha. discriminate.
    + right. apply store_Append_Err in Ha. destruct Ha as (_ & He). congruence.
    + exfalso. apply (store_Append_no_Panic s q). rewrite Ha. reflexivity.
  - apply IH. destruct Hok as [Hi|He].
    + left. apply store_Read_keeps in Hr. destruct Hr as (Hc & Hs).
      apply store_inv_content. apply store_inv_content in Hi. congruence.
    + right. replace s1 with (snd (store_Read s pos)) by (rewrite Hr; reflexivity).
      rewrite store_Read_state. apply flushed_spent. exact He.
  - apply IH. destruct Hok as [Hi|He].
    + left. apply store_ReadAt_keeps in Hr. destruct Hr as (Hc & Hs).
      apply store_inv_content. apply store_inv_content in Hi. congruence.
    + right. replace s1 with (snd (store_ReadAt s len off)) by (rewrite Hr; reflexivity).
      rewrite store_ReadAt_state. apply flushed_spent. exact He.
Qed.

Lemma flushed_no_fault s :
  bufio.werr (buf s) = None -> os.wfaults (File s) = [] -> fst (flushed s) = None.
Proof.
  intros He Hf. unfold flushed, bufio.Flush. rewrite He.
  destruct (bufio.Buffered (buf s) =? 0)%nat eqn:Eb; [reflexivity|].
  unfold os.Write. rewrite Hf.
  unfold bufio.Buffered. rewrite Nat.ltb_irrefl. reflexivity.
Qed.

(** C1. Store-level round trip: on any store made by [newStore] and used
    since, after a successful [Append p] that returned [pos], and after
    any further calls, [Read pos] returns exactly [p] (or, if the flush
    that begins the read fails, the error of that flush, which cannot
    happen when no write fails); and every later successful append is
    handed a strictly higher position. *)
Theorem store_roundtrip f s0 s p n pos s1 s2 :
  newStore f = Ok s0 ->
  store_trace s0 s ->
  store_Append s p = (Ok (n, pos), s1) ->
  store_trace s1 s2 ->
  Z.of_nat (length (content s2)) < 2 ^ 63 ->
  fst (store_Read s2 pos) =
    match fst (flushed s2) with None => Ok p | Some e => Err e end /\
  (bufio.werr (buf s2) = None -> os.wfaults (File s2) = [] ->
     fst (store_Read s2 pos) = Ok p) /\
  (forall q n' pos' s3, store_Append s2 q = (Ok (n', pos'), s3) -> pos < pos').
Proof.
  intros Hnew Ht0 Ha Hl Hlen.
  assert (Hok : store_ok s).
  { apply (store_trace_ok s0 s Ht0). left. eapply newStore_inv; eassumption. }
  assert (Hi : store_inv s).
  { destruct Hok as [Hi|He]; [exact Hi|].
    destruct (bufio.werr (buf s)) as [e|] eqn:Ee; [|congruence].
    rewrite (store_Append_sticky _ _ _ Ee) in Ha. discriminate. }
  pose proof (store_Append_inv _ _ _ _ _ Ha Hi) as Hi1.
  assert (Hok2 : store_ok s2) by (apply (store_trace_ok s1 s2 Hl); left; exact Hi1).
  apply store_Append_Ok in Ha. destruct Ha as (Hpos & _ & _ & Hc1 & _).
  destruct (store_trace_content _ _ Hl) as [more Hc2].
  rewrite Hc1, <- app_assoc in Hc2.
  assert (Hlen' := Hlen). rewrite Hc2, !length_app, length_frame in Hlen'.
  apply store_inv_content in Hi. rewrite wrap64_small in Hi by lia.
  assert (Hp : pos = Z.of_nat (length (content s))) by congruence.
  assert (Hr : fst (store_Read s2 pos) =
               match fst (flushed s2) with None => Ok p | Some e => Err e end).
  { rewrite Hp. apply (store_Read_frame s2 (content s) p more Hc2 Hlen). }
  split; [exact Hr|]. split.
  - intros He Hf. rewrite Hr, flushed_no_fault by assumption. reflexivity.
  - intros q n' pos' s3 Hq.
    assert (Hi2 : store_inv s2).
    { destruct Hok2 as [Hi2|He]; [exact Hi2|].
      destruct (bufio.werr (buf s2)) as [e|] eqn:Ee; [|congruence].
      rewrite (store_Append_sticky _ _ _ Ee) in Hq. discriminate. }
    apply store_inv_content in Hi2. rewrite wrap64_small in Hi2 by lia.
    apply store_Append_Ok in Hq.
    destruct Hq as (Hpos' & _). rewrite Hpos', Hi2, Hp, Hc2, !length_app, length_frame. lia.
Qed.

Lemma store_roundtrip_witness :
  fst (store_Read (appended (store_on no_file) [hello; world]) 0) = Ok hello /\
  fst (store_Read (appended (store_on no_file) [hello; world]) 13) = Ok world.
Proof.
  split.
  - refine (proj1 (proj2 (store_roundtrip no_file (store_on no_file)
             (store_on no_file) hello 13 0
             (appended (store_on no_file) [hello])
             (appended (store_on no_file) [hello; world]) _ _ _ _ _)) _ _).
    + vm_compute. reflexivity.
    + apply trace_refl.
    + vm_compute. reflexivity.
    + apply (trace_Append _ world (Ok (13, 13)) (appended (store_on no_file) [hello; world]));
        [vm_compute; reflexivity|apply trace_refl].
    + vm_compute. reflexivity.
    + vm_compute. reflexivity.
    + vm_compute. reflexivity.
  - refine (proj1 (proj2 (store_roundtrip no_file (store_on no_file)
             (appended (store_on no_file) [hello]) world 13 13
             (appended (store_on no_file) [hello; world])
             (appended (store_on no_file) [hello; world]) _ _ _ _ _)) _ _).
    + vm_compute. reflexivity.
    + apply (trace_Append _ hello (Ok (13, 0)) (appended (store_on no_file) [hello]));
        [vm_compute; reflexivity|apply trace_refl].
    + vm_compute. reflexivity.
    + apply trace_refl.
    + vm_compute. reflexivity.
    + vm_compute. reflexivity.
    + vm_compute. reflexivity.
Defined.

(** C2. Postcondition of a successful [store.Append p]: the position
    returned is the [size] before the call, the count returned is
    [len(p) + 8], and [size] has grown by [len(p) + 8] (in [uint64]
    arithmetic, and exactly so when the sum is a [uint64]); what was
    written is the 8-byte big-endian length followed by the payload. *)
Theorem store_Append_post s p n pos s' :
  store_Append s p = (Ok (n, pos), s') ->
  pos = size s /\
  n = wrap64 (Z.of_nat (length p) + 8) /\
  size s' = wrap64 (size s + (Z.of_nat (length p) + 8)) /\
  content s' = content s ++ binary.PutUint64 (wrap64 (Z.of_nat (length p))) ++ p /\
  (0 <= size s -> size s + Z.of_nat (length p) + 8 < 2 ^ 64 ->
     n = Z.of_nat (length p) + 8 /\ size s' = size s + (Z.of_nat (length p) + 8)).
Proof.
  intros H. apply store_Append_Ok in H. destruct H as (Hp & Hn & Hs & Hc & _).
  rewrite <- Z.add_assoc in Hs.
  repeat (split; [assumption|]).
  intros H0 Hb. rewrite Hn, Hs, !wrap64_small by lia. split; reflexivity.
Qed.

Lemma store_Append_post_witness :
  fst (store_Append (appended (store_on no_file) [hello]) world) = Ok (13, 13) /\
  size (appended (store_on no_file) [hello; world]) = 13 + (5 + 8).
Proof.
  pose proof (store_Append_post (appended (store_on no_file) [hello]) world 13 13
                (appended (store_on no_file) [hello; world])) as H.
  assert (E : store_Append (appended (store_on no_file) [hello]) world =
              (Ok (13, 13), appended (store_on no_file) [hello; world]))
    by (vm_compute; reflexivity).
  destruct (H E) as (_ & _ & _ & _ & Hx).
  split; [rewrite E; reflexivity|].
  apply Hx; vm_compute; [discriminate|reflexivity].
Defined.

(** C8 (as amended). The size invariant, [size] equal in [uint64] to the
    flushed file length plus the buffered bytes, holds of the store that
    [newStore] returns, and is kept by every successful [Append] and by
    every [Read] and [ReadAt], whatever they return. *)
Theorem store_size_invariant f s0 s t :
  newStore f = Ok s0 ->
  store_inv s -> store_later s t ->
  store_inv s0 /\ store_inv t.
Proof.
  intros Hn Hi Hl. split.
  - eapply newStore_inv; eassumption.
  - eapply store_later_inv; eassumption.
Qed.

Lemma store_size_invariant_witness :
  store_inv (store_on no_file) /\
  store_inv (snd (store_Read (appended (store_on no_file) [hello; world]) 0)).
Proof.
  apply (store_size_invariant no_file (store_on no_file) (store_on no_file)
           (snd (store_Read (appended (store_on no_file) [hello; world]) 0))).
  - vm_compute. reflexivity.
  - vm_compute. reflexivity.
  - apply (later_Append _ hello 13 0 (appended (store_on no_file) [hello]));
      [vm_compute; reflexivity|].
    apply (later_Append _ world 13 13 (appended (store_on no_file) [hello; world]));
      [vm_compute; reflexivity|].
    apply (later_Read _ 0 (Ok hello)
             (snd (store_Read (appended (store_on no_file) [hello; world]) 0)));
      [vm_compute; reflexivity|apply later_refl].
Defined.

(** C8 as stated fails: an [Append] that fails after the buffer has taken
    part of the entry leaves [size] at 0 while 100 bytes are in the file
    and 3996 in the buffer. *)
Lemma store_inv_broken_by_failed_Append :
  newStore faulty_file = Ok (store_on faulty_file) /\
  store_inv (store_on faulty_file) /\
  fst (store_Append (store_on faulty_file) big_payload) = Err ErrIO /\
  size (snd (store_Append (store_on faulty_file) big_payload)) = 0 /\
  length (os.fdata (File (snd (store_Append (store_on faulty_file) big_payload)))) = 100%nat /\
  length (bufio.wbuf (buf (snd (store_Append (store_on faulty_file) big_payload)))) = 3996%nat /\
  ~ store_inv (snd (store_Append (store_on faulty_file) big_payload)).
Proof.
  repeat split; try (vm_compute; reflexivity).
  unfold store_inv. vm_compute. discriminate.
Qed.

(** C10 (as amended). A [store.Append] that returns an error leaves
    [size] as it was, every error return coming before the size update.
    The call is not undone in any other respect: the writer keeps the
    error, so every later [Append] on that store fails with it and changes
    nothing, and what the failed call put into the buffer or the file
    stays behind what was there. *)
Theorem store_Append_failure_keeps_size s p e s' :
  store_Append s p = (Err e, s') ->
  size s' = size s /\
  bufio.werr (buf s') = Some e /\
  (forall q, store_Append s' q = (Err e, s')) /\
  (exists more, content s' = content s ++ more).
Proof.
  intros H. pose proof (store_Append_extends _ _ _ _ H) as Hc.
  apply store_Append_Err in H. destruct H as (Hs & He).
  split; [exact Hs|]. split; [exact He|]. split; [|exact Hc].
  intros q. apply store_Append_sticky. exact He.
Qed.

Lemma store_Append_failure_keeps_size_witness :
  size (snd (store_Append (store_on faulty_file) big_payload)) = size (store_on faulty_file) /\
  store_Append (snd (store_Append (store_on faulty_file) big_payload)) hello =
    (Err ErrIO, snd (store_Append (store_on faulty_file) big_payload)).
Proof.
  pose proof (store_Append_failure_keeps_size (store_on faulty_file) big_payload ErrIO
                (snd (store_Append (store_on faulty_file) big_payload))) as W.
  destruct W as (W1 & _ & W2 & _); [vm_compute; reflexivity|].
  split; [exact W1|apply W2].
Defined.

(** C10 as stated fails: the failed call can be told from no call at all.
    On an empty file whose first write stops after 100 bytes, [Append
    hello] is handed position 0 when nothing went before; after a failed
    append of 4089 bytes, which left [size] at 0, it fails on that store,
    and on a store reopened on the file it is handed position 100. *)
Lemma store_Append_failure_not_undone :
  fst (store_Append (store_on faulty_file) hello) = Ok (13, 0) /\
  fst (store_Append (store_on faulty_file) big_payload) = Err ErrIO /\
  size (snd (store_Append (store_on faulty_file) big_payload)) = 0 /\
  fst (store_Append (snd (store_Append (store_on faulty_file) big_payload)) hello)
    = Err ErrIO /\
  newStore (File (snd (store_Append (store_on faulty_file) big_payload))) =
    Ok (store_on (File (snd (store_Append (store_on faulty_file) big_payload)))) /\
  fst (store_Append
         (store_on (File (snd (store_Append (store_on faulty_file) big_payload)))) hello)
    = Ok (13, 100).
Proof.
  repeat split; vm_compute; reflexivity.
Qed.

(** ** The segment *)

(** *** [segment.Append] *)

Lemma segment_Append_Ok {P : proto} s r off s' r' :
  segment_Append s r = (Ok off, s', r') ->
  r' = {| Value := Value r; Offset := nextOffset s |} /\
  off = nextOffset s /\
  nextOffset s' = wrap64 (nextOffset s + 1) /\
  baseOffset s' = baseOffset s /\
  exists p n pos,
    Marshal r' = Ok p /\
    store_Append (s_store s) p = (Ok (n, pos), s_store s') /\
    index_Write (s_index s) (wrap32 (wrap64 (nextOffset s - baseOffset s))) pos
      = (None, s_index s').
Proof.
  unfold segment_Append. intros Hs.
  destruct (Marshal _) as [p| |] eqn:Em; try (inversion Hs; fail).
  destruct (store_Append (s_store s) p) as [[[n pos]| |] st] eqn:Ea;
    try (inversion Hs; fail).
  destruct (index_Write _ _ pos) as [[e|] idx] eqn:Ew; inversion Hs; subst; clear Hs.
  cbn. repeat split; auto. exists p, n, pos. auto.
Qed.

Lemma seg_appends_offsets {P : proto} s offs s' :
  seg_appends s offs s' ->
  0 <= nextOffset s ->
  nextOffset s + Z.of_nat (length offs) <= 2 ^ 64 ->
  offs = map (fun i => nextOffset s + Z.of_nat i) (seq 0 (length offs)).
Proof.
  induction 1 as [s | s r off s1 r' offs s2 Ha _ IH]; intros H0 Hb.
  - reflexivity.
  - apply segment_Append_Ok in Ha. destruct Ha as (_ & Hoff & Hn & _).
    cbn [length seq map]. rewrite Z.add_0_r. f_equal; [exact Hoff|].
    cbn [length] in Hb.
    destruct offs as [|o offs']; [reflexivity|].
    assert (Hn1 : nextOffset s1 = nextOffset s + 1).
    { rewrite Hn. apply wrap64_small. cbn [length] in Hb. lia. }
    rewrite IH by lia.
    rewrite <- seq_shift, map_map, length_map, length_seq.
    apply map_ext. intros i. rewrite Hn1. lia.
Qed.

(** C3. Offset assignment in a segment: a successful [segment.Append]
    sets the record's [Offset] to the [nextOffset] it found, returns that
    value, and increments [nextOffset] by one; so consecutive successful
    appends return consecutive offsets, and on a fresh segment with base
    offset 0 they return 0, 1, 2, ... *)
Theorem segment_Append_offsets {P : proto} s r off s1 r' offs s2 :
  segment_Append s r = (Ok off, s1, r') ->
  seg_appends s1 offs s2 ->
  Offset r' = nextOffset s /\
  off = nextOffset s /\
  nextOffset s1 = wrap64 (nextOffset s + 1) /\
  (0 <= nextOffset s ->
   nextOffset s + Z.of_nat (length (off :: offs)) <= 2 ^ 64 ->
   off :: offs =
     map (fun i => nextOffset s + Z.of_nat i) (seq 0 (length (off :: offs))) /\
   (baseOffset s = 0 -> nextOffset s = baseOffset s ->
    off :: offs = map Z.of_nat (seq 0 (length (off :: offs))))).
Proof.
  intros Ha Hs.
  pose proof (appends_cons _ _ _ _ _ _ _ Ha Hs) as Hall.
  apply segment_Append_Ok in Ha. destruct Ha as (Hr & Hoff & Hn & _).
  split; [rewrite Hr; reflexivity|]. split; [exact Hoff|]. split; [exact Hn|].
  intros H0 Hb.
  pose proof (seg_appends_offsets _ _ _ Hall H0 Hb) as Hseq.
  split; [exact Hseq|].
  intros Hbase Hnext. rewrite Hseq at 1.
  apply map_ext. intros i. lia.
Qed.

Lemma segment_Append_offsets_witness :
  Offset (snd (segment_Append (P := fixed_proto)
                 (fresh_segment 0 (config_of 1024 1024)) (record_of hello))) = 0 /\
  [0; 1; 2] = map Z.of_nat (seq 0 3).
Proof.
  pose proof (segment_Append_offsets (P := fixed_proto)
    (fresh_segment 0 (config_of 1024 1024)) (record_of hello) 0
    (seg_appended (fresh_segment 0 (config_of 1024 1024)) [hello])
    {| Value := hello; Offset := 0 |} [1; 2]
    (seg_appended (fresh_segment 0 (config_of 1024 1024)) [hello; world; hello])) as W.
  assert (E1 : segment_Append (P := fixed_proto)
                 (fresh_segment 0 (config_of 1024 1024)) (record_of hello) =
               (Ok 0, seg_appended (fresh_segment 0 (config_of 1024 1024)) [hello],
                {| Value := hello; Offset := 0 |})) by (vm_compute; reflexivity).
  assert (E2 : seg_appends (P := fixed_proto)
                 (seg_appended (fresh_segment 0 (config_of 1024 1024)) [hello]) [1; 2]
                 (seg_appended (fresh_segment 0 (config_of 1024 1024)) [hello; world; hello])).
  { apply (appends_cons (P := fixed_proto) _ (record_of world) 1
             (seg_appended (fresh_segment 0 (config_of 1024 1024)) [hello; world])
             {| Value := world; Offset := 1 |}); [vm_compute; reflexivity|].
    apply (appends_cons (P := fixed_proto) _ (record_of hello) 2
             (seg_appended (fresh_segment 0 (config_of 1024 1024)) [hello; world; hello])
             {| Value := hello; Offset := 2 |}); [vm_compute; reflexivity|].
    apply appends_nil. }
  destruct (W E1 E2) as (_ & _ & _ & Hx).
  split; [rewrite E1; reflexivity|].
  apply Hx; vm_compute; try reflexivity; discriminate.
Defined.

(** *** [index] *)

Lemma index_Write_fails i off pos e i' :
  index_Write i off pos = (Some e, i') -> i' = i.
Proof.
  unfold index_Write. destruct (mapped i <? index_size i + entWidth); intros H; inversion H.
  reflexivity.
Qed.

Lemma index_Read_out_of_range i n :
  n <> -1 -> (n < 0 \/ Z.of_nat (length (entries i)) <= n) ->
  index_Read i n = Err ErrNotFound.
Proof.
  intros Hn Hr. unfold index_Read.
  destruct (Z.eqb_spec n (-1)); [contradiction|].
  destruct (Z.leb_spec 0 n), (Z.ltb_spec n (Z.of_nat (length (entries i))));
    simpl; try reflexivity; lia.
Qed.

(** C5. A partial append is not rolled back: when the store append
    succeeds and the index write fails, [segment.Append] returns that
    error, [nextOffset] is what it was, the store keeps the appended entry
    ([size] grown by the entry), and the index has no entry for it. *)
Theorem segment_Append_partial {P : proto} s r p n pos st e idx :
  Marshal {| Value := Value r; Offset := nextOffset s |} = Ok p ->
  store_Append (s_store s) p = (Ok (n, pos), st) ->
  index_Write (s_index s) (wrap32 (wrap64 (nextOffset s - baseOffset s))) pos
    = (Some e, idx) ->
  fst (fst (segment_Append s r)) = Err e /\
  nextOffset (snd (fst (segment_Append s r))) = nextOffset s /\
  s_store (snd (fst (segment_Append s r))) = st /\
  size st = wrap64 (size (s_store s) + (Z.of_nat (length p) + 8)) /\
  content st = content (s_store s) ++ frame p /\
  entries (s_index (snd (fst (segment_Append s r)))) = entries (s_index s).
Proof.
  intros Hm Ha Hw. unfold segment_Append. rewrite Hm, Ha, Hw. cbn.
  apply index_Write_fails in Hw. subst idx.
  apply store_Append_Ok in Ha. destruct Ha as (_ & _ & Hs & Hc & _).
  rewrite <- Z.add_assoc in Hs. auto 10.
Qed.

Lemma segment_Append_partial_witness :
  fst (fst (segment_Append (P := fixed_proto)
              (fresh_segment 0 (config_of 1024 0)) (record_of hello))) = Err EOF /\
  nextOffset (snd (fst (segment_Append (P := fixed_proto)
              (fresh_segment 0 (config_of 1024 0)) (record_of hello)))) = 0 /\
  size (s_store (snd (fst (segment_Append (P := fixed_proto)
              (fresh_segment 0 (config_of 1024 0)) (record_of hello))))) = 21.
Proof.
  pose proof (segment_Append_partial (P := fixed_proto)
    (fresh_segment 0 (config_of 1024 0)) (record_of hello)
    (binary.PutUint64 0 ++ hello) 21 0
    (snd (store_Append (store_on no_file) (binary.PutUint64 0 ++ hello)))
    EOF {| entries := []; mapped := 0 |}) as W.
  destruct W as (W1 & W2 & W3 & W4 & _); try (vm_compute; reflexivity).
  split; [exact W1|]. split; [exact W2|]. rewrite W3, W4. vm_compute. reflexivity.
Defined.

(** C6. [IsMaxed] is a disjunction: it returns true exactly when the
    store's size has reached [MaxStoreBytes] or the index's size has
    reached [MaxIndexBytes]; either alone suffices. *)
Theorem segment_IsMaxed_iff s :
  segment_IsMaxed s = true <->
  (MaxStoreBytes (Segment (config s)) <= size (s_store s) \/
   MaxIndexBytes (Segment (config s)) <= index_size (s_index s)).
Proof.
  unfold segment_IsMaxed. rewrite orb_true_iff, !Z.leb_le. reflexivity.
Qed.

(** *** [newSegment] *)

Lemma newSegment_Ok dir base c s :
  newSegment dir base c = Ok s ->
  baseOffset s = base /\ config s = c /\
  match index_Read (s_index s) (-1) with
  | Ok (off, _) => nextOffset s = wrap64 (base + off + 1)
  | Err _ => nextOffset s = base
  | Panic => False
  end.
Proof.
  unfold newSegment, bind. intros H.
  destruct (OpenFile_store dir base) as [sf| |]; try discriminate.
  destruct (newStore sf) as [st| |]; try discriminate.
  destruct (OpenFile_index dir base) as [xf| |]; try discriminate.
  destruct (newIndex xf c) as [idx| |]; try discriminate.
  destruct (index_Read idx (-1)) as [[off pos]|e|] eqn:Er;
    inversion H; subst; clear H;
    cbn [s_index baseOffset nextOffset config]; rewrite Er; auto.
Qed.

(** C7 (as amended). Recovery of [nextOffset] on open: a successful
    [newSegment] sets [nextOffset] to [baseOffset + relativeOffset + 1],
    computed in [uint64], when [index.Read(-1)] yields the last entry, and
    to [baseOffset] when it fails; [nextOffset >= baseOffset] holds in the
    second case, and in the first when the sum does not overflow. *)
Theorem newSegment_nextOffset dir base c s :
  newSegment dir base c = Ok s ->
  baseOffset s = base /\
  match index_Read (s_index s) (-1) with
  | Ok (off, _) =>
      nextOffset s = wrap64 (base + off + 1) /\
      (0 <= off -> 0 <= base -> base + off + 1 < 2 ^ 64 ->
       nextOffset s = base + off + 1 /\ baseOffset s <= nextOffset s)
  | _ => nextOffset s = base /\ baseOffset s <= nextOffset s
  end.
Proof.
  intros H. apply newSegment_Ok in H. destruct H as (Hb & _ & Hn).
  split; [exact Hb|].
  destruct (index_Read (s_index s) (-1)) as [[off pos]|e|].
  - split; [exact Hn|]. intros Ho Hb0 Hlt.
    rewrite Hn, Hb, wrap64_small by lia. lia.
  - rewrite Hn, Hb. lia.
  - contradiction.
Qed.

Lemma newSegment_nextOffset_witness :
  nextOffset (fresh_segment 7 (config_of 1024 1024)) = 7 /\
  baseOffset (fresh_segment 7 (config_of 1024 1024))
    <= nextOffset (fresh_segment 7 (config_of 1024 1024)).
Proof.
  pose proof (newSegment_nextOffset empty_dir 7 (config_of 1024 1024)
                (fresh_segment 7 (config_of 1024 1024))) as W.
  destruct W as (_ & W); [vm_compute; reflexivity|].
  exact W.
Defined.

(** C7 as stated fails at the top of the [uint64] range: the sum wraps
    and the segment is returned with [nextOffset] below [baseOffset]. *)
Lemma newSegment_nextOffset_wraps :
  newSegment last_offset_dir (2 ^ 64 - 1) (config_of 1024 1024) = Ok wrapped_segment /\
  index_Read (s_index wrapped_segment) (-1) = Ok (0, 0) /\
  baseOffset wrapped_segment = 2 ^ 64 - 1 /\
  nextOffset wrapped_segment = 0 /\
  ~ baseOffset wrapped_segment <= nextOffset wrapped_segment.
Proof.
  repeat split; try (vm_compute; reflexivity).
  vm_compute. intros H. apply H. reflexivity.
Qed.

(** *** [segment.Read] *)

(** C4 (as amended). A read outside the range of the segment fails with
    the not-found condition and returns no record, for every offset but
    the one just below [baseOffset] (modulo 2^64), whose relative offset
    is the -1 that [index.Read] takes for "the last entry". *)
Theorem segment_Read_out_of_range {P : proto} s off :
  segment_inv s ->
  0 <= off < 2 ^ 64 ->
  off < baseOffset s \/ nextOffset s <= off ->
  wrap64 (off - baseOffset s) <> 2 ^ 64 - 1 ->
  segment_Read s off = (Err ErrNotFound, s).
Proof.
  intros (Hb & Hn & Hlt) Hoff Hout Hne.
  unfold segment_Read.
  rewrite index_Read_out_of_range; [reflexivity| |].
  - unfold to_int64. rewrite wrap64_small by apply wrap64_range.
    pose proof (wrap64_range (off - baseOffset s)).
    destruct (Z.ltb_spec (wrap64 (off - baseOffset s)) (2 ^ 63)); lia.
  - unfold to_int64. rewrite wrap64_small by apply wrap64_range.
    pose proof (wrap64_range (off - baseOffset s)) as Hr.
    destruct (Z.ltb_spec (wrap64 (off - baseOffset s)) (2 ^ 63)) as [Hs|Hs]; [|left; lia].
    right. destruct Hout as [Hlow|Hhigh].
    + rewrite wrap64_neg in * by lia. lia.
    + rewrite wrap64_small by lia. lia.
Qed.

Lemma segment_Read_out_of_range_witness :
  segment_Read (P := fixed_proto)
    (seg_appended (fresh_segment 5 (config_of 1024 1024)) [hello; world]) 7 =
  (Err ErrNotFound, seg_appended (fresh_segment 5 (config_of 1024 1024)) [hello; world]) /\
  segment_Read (P := fixed_proto)
    (seg_appended (fresh_segment 5 (config_of 1024 1024)) [hello; world]) 3 =
  (Err ErrNotFound, seg_appended (fresh_segment 5 (config_of 1024 1024)) [hello; world]).
Proof.
  split; apply (segment_Read_out_of_range (P := fixed_proto)).
  all: try (vm_compute; repeat split; congruence).
  - right. vm_compute. discriminate.
  - left. vm_compute. reflexivity.
Defined.

(** C4 as stated fails just below the base offset: in a segment with base
    offset 5 that holds offsets 5 and 6, [Read 4] is no error but the
    record at offset 6, the last one. *)
Lemma segment_Read_below_base_returns_last :
  segment_inv (seg_appended (fresh_segment 5 (config_of 1024 1024)) [hello; world]) /\
  baseOffset (seg_appended (fresh_segment 5 (config_of 1024 1024)) [hello; world]) = 5 /\
  nextOffset (seg_appended (fresh_segment 5 (config_of 1024 1024)) [hello; world]) = 7 /\
  fst (segment_Read (P := fixed_proto)
         (seg_appended (fresh_segment 5 (config_of 1024 1024)) [hello; world]) 4)
    = Ok {| Value := world; Offset := 6 |}.
Proof.
  repeat split; try (vm_compute; reflexivity); vm_compute; discriminate.
Qed.

(** *** [nearestMultiple] *)

(** C9. [nearestMultiple j k] rounds down: for unsigned [j] and [k > 0]
    it returns [(j / k) * k], the first branch being the one taken, and
    that is the largest multiple of [k] that is at most [j]. *)
Theorem nearestMultiple_rounds_down j k :
  0 <= j < 2 ^ 64 -> 0 < k < 2 ^ 64 ->
  nearestMultiple j k = Ok (j / k * k) /\
  (0 <=? j) = true /\
  multiple_of k (j / k * k) /\
  j / k * k <= j /\
  (forall m, multiple_of k m -> m <= j -> m <= j / k * k).
Proof.
  intros Hj Hk.
  assert (Hle : j / k * k <= j) by (rewrite Z.mul_comm; apply Z.mul_div_le; lia).
  assert (H0 : 0 <= j / k * k) by (apply Z.mul_nonneg_nonneg; [apply Z.div_pos|]; lia).
  unfold nearestMultiple.
  destruct (Z.leb_spec 0 j); [|lia].
  destruct (Z.eqb_spec k 0); [lia|].
  rewrite wrap64_small by lia.
  split; [reflexivity|]. split; [reflexivity|].
  split; [exists (j / k); reflexivity|]. split; [exact Hle|].
  intros m [q ->] Hm.
  apply Z.mul_le_mono_nonneg_r; [lia|].
  apply Z.div_le_lower_bound; lia.
Qed.

Lemma nearestMultiple_rounds_down_witness :
  nearestMultiple 1000 64 = Ok 960 /\ nearestMultiple 5 7 = Ok 0.
Proof.
  split.
  - apply (nearestMultiple_rounds_down 1000 64); lia.
  - apply (nearestMultiple_rounds_down 5 7); lia.
Defined.

(** * Further properties *)

(** ** The store: raw reads, failures, buffering, closing *)

Lemma flushed_content s :
  fst (flushed s) = None ->
  os.fdata (File (snd (flushed s))) = content s /\
  bufio.wbuf (buf (snd (flushed s))) = [] /\
  bufio.werr (buf (snd (flushed s))) = None /\
  size (snd (flushed s)) = size s.
Proof.
  intros Hf. destruct (flushed s) as [err s1] eqn:Ef. cbn [fst snd] in *. subst err.
  pose proof Ef as Ef'. apply flushed_spec in Ef. destruct Ef as (_ & Hs & Hfl).
  destruct (Hfl eq_refl) as (Hd & Hb).
  repeat split; auto.
  unfold flushed in Ef'.
  destruct (bufio.Flush (buf s) (File s)) as [[e b1] f1] eqn:E.
  inversion Ef'; subst. cbn [buf]. apply Flush_spec in E. tauto.
Qed.

(** X1. [store.ReadAt] reads the bytes handed to the store, buffered ones
    included: it flushes, then reads [len] bytes at [off] of the whole
    content, with [EOF] when fewer are there, and fails on a negative
    offset or with the error of the flush. *)
Theorem store_ReadAt_reads_content s len off :
  fst (store_ReadAt s len off) =
  match fst (flushed s) with
  | Some e => ([], Some e)
  | None =>
      if off <? 0 then ([], Some ErrNegativeOffset)
      else
        let got := firstn len (skipn (Z.to_nat off) (content s)) in
        (got, if (length got <? len)%nat then Some EOF else None)
  end.
Proof.
  rewrite store_ReadAt_flushed.
  pose proof (flushed_content s) as Hc.
  destruct (flushed s) as [[e|] s1]; cbn [fst snd] in *; [reflexivity|].
  destruct (Hc eq_refl) as (Hd & _).
  unfold os.ReadAt. rewrite Hd.
  destruct (off <? 0); [reflexivity|]. cbv zeta.
  destruct (length _ <? len)%nat; reflexivity.
Qed.

Lemma flushed_spent_same s e :
  bufio.werr (buf s) = Some e -> flushed s = (Some e, s).
Proof.
  intros He. unfold flushed, bufio.Flush. rewrite He. destruct s; reflexivity.
Qed.

Lemma store_spent_calls s e :
  bufio.werr (buf s) = Some e ->
  (forall q, store_Append s q = (Err e, s)) /\
  (forall pos, store_Read s pos = (Err e, s)) /\
  (forall len off, store_ReadAt s len off = ([], Some e, s)) /\
  (forall ce, store_Close s ce = (Some e, s)).
Proof.
  intros He. split; [|split; [|split]].
  - intros q. apply store_Append_sticky. exact He.
  - intros pos. rewrite store_Read_flushed, (flushed_spent_same _ _ He). reflexivity.
  - intros len off. rewrite store_ReadAt_flushed, (flushed_spent_same _ _ He). reflexivity.
  - intros ce. unfold store_Close, bufio.Flush. rewrite He. destruct s; reflexivity.
Qed.

Lemma store_trace_spent s e t :
  bufio.werr (buf s) = Some e -> store_trace s t -> t = s.
Proof.
  intros He Ht. induction Ht as [s | s q r s1 s2 Ha _ IH | s pos r s1 s2 Hr _ IH
                                | s len off b e' s1 s2 Hr _ IH].
  - reflexivity.
  - destruct (store_spent_calls s e He) as (Hq & _).
    rewrite Hq in Ha. inversion Ha; subst. apply IH. exact He.
  - destruct (store_spent_calls s e He) as (_ & Hq & _).
    rewrite Hq in Hr. inversion Hr; subst. apply IH. exact He.
  - destruct (store_spent_calls s e He) as (_ & _ & Hq & _).
    rewrite Hq in Hr. inversion Hr; subst. apply IH. exact He.
Qed.

(** X2. A failed append spends the store: whatever is called afterwards,
    the store stays as the failed call left it, and every later [Append],
    [Read], [ReadAt] and [Close] fails with the error of that append. *)
Theorem store_spent_forever s0 p e s t :
  store_Append s0 p = (Err e, s) ->
  store_trace s t ->
  t = s /\
  (forall q, store_Append t q = (Err e, t)) /\
  (forall pos, store_Read t pos = (Err e, t)) /\
  (forall len off, store_ReadAt t len off = ([], Some e, t)) /\
  (forall ce, store_Close t ce = (Some e, t)).
Proof.
  intros Ha Ht. apply store_Append_Err in Ha. destruct Ha as (_ & He).
  pose proof (store_trace_spent s e t He Ht) as ->.
  split; [reflexivity|]. apply store_spent_calls. exact He.
Qed.

Lemma store_spent_forever_witness :
  store_Read (snd (store_Append (store_on faulty_file) big_payload)) 0 =
    (Err ErrIO, snd (store_Append (store_on faulty_file) big_payload)) /\
  store_Append (snd (store_Append (store_on faulty_file) big_payload)) hello =
    (Err ErrIO, snd (store_Append (store_on faulty_file) big_payload)).
Proof.
  pose proof (store_spent_forever (store_on faulty_file) big_payload ErrIO
                (snd (store_Append (store_on faulty_file) big_payload))
                (snd (store_Append (store_on faulty_file) big_payload))) as W.
  destruct W as (_ & Wa & Wr & _).
  - vm_compute. reflexivity.
  - apply trace_refl.
  - split; [apply Wr|apply Wa].
Defined.

(** X3. A read at or past the end fails: when fewer than 8 bytes lie at
    [pos], [store.Read] returns [EOF], and a position that is negative as
    an [int64] is refused. *)
Theorem store_Read_past_end s pos :
  fst (flushed s) = None ->
  0 <= pos < 2 ^ 64 ->
  Z.of_nat (length (content s)) < pos + 8 ->
  fst (store_Read s pos) =
    Err (if pos <? 2 ^ 63 then EOF else ErrNegativeOffset).
Proof.
  intros Hf Hpos Hlen. rewrite store_Read_flushed.
  destruct (flushed_content s Hf) as (Hd & _).
  destruct (flushed s) as [err s1]. cbn [fst snd] in *. subst err.
  unfold os.ReadAt, to_int64. rewrite wrap64_small by lia.
  destruct (Z.ltb_spec pos (2 ^ 63)) as [Hlt|Hge].
  - destruct (Z.ltb_spec pos 0); [lia|]. rewrite Hd.
    change (Z.to_nat lenWidth) with 8%nat.
    assert (Hshort : (length (firstn 8 (skipn (Z.to_nat pos) (content s))) < 8)%nat).
    { rewrite length_firstn, length_skipn. lia. }
    apply Nat.ltb_lt in Hshort. rewrite Hshort. reflexivity.
  - destruct (Z.ltb_spec (pos - 2 ^ 64) 0); [reflexivity|lia].
Qed.

Lemma store_Read_past_end_witness :
  fst (store_Read (appended (store_on no_file) [hello; world]) 26) = Err EOF /\
  fst (store_Read (appended (store_on no_file) [hello; world]) (2 ^ 63)) =
    Err ErrNegativeOffset.
Proof.
  split.
  - apply (store_Read_past_end (appended (store_on no_file) [hello; world]) 26);
      vm_compute; try reflexivity; split; congruence.
  - apply (store_Read_past_end (appended (store_on no_file) [hello; world]) (2 ^ 63));
      vm_compute; try reflexivity; split; congruence.
Defined.

Lemma bufio_Write_fits b f p :
  bufio.werr b = None ->
  (length p <= bufio.Available b)%nat ->
  bufio.Write b f p =
  (length p, None,
   {| bufio.wbuf := bufio.wbuf b ++ p; bufio.wsize := bufio.wsize b; bufio.werr := None |}, f).
Proof.
  intros He Hfit. unfold bufio.Write.
  rewrite Write_loop_done by (right; exact Hfit). rewrite He.
  rewrite Nat.min_r by exact Hfit. rewrite firstn_all. reflexivity.
Qed.

(** X4. Appends are buffered: an entry that fits in the free space of the
    write buffer is appended without any write to the file, so it
    succeeds whatever the disk would do, and lands in the buffer. *)
Theorem store_Append_buffered s p :
  bufio.werr (buf s) = None ->
  (length (bufio.wbuf (buf s)) + 8 + length p <= bufio.wsize (buf s))%nat ->
  store_Append s p =
  (Ok (wrap64 (Z.of_nat (length p) + 8), size s),
   {| File := File s;
      buf := {| bufio.wbuf := bufio.wbuf (buf s) ++ frame p;
                bufio.wsize := bufio.wsize (buf s); bufio.werr := None |};
      size := wrap64 (size s + (Z.of_nat (length p) + 8)) |}).
Proof.
  intros He Hfit. unfold store_Append, binary.Write.
  rewrite bufio_Write_fits;
    [|exact He|unfold bufio.Available; rewrite length_PutUint64; lia].
  rewrite bufio_Write_fits;
    [|reflexivity
     |unfold bufio.Available; cbn [bufio.wbuf bufio.wsize];
      rewrite length_app, length_PutUint64; lia].
  cbn [bufio.wbuf bufio.wsize]. unfold lenWidth.
  rewrite wrap64_to_int64, wrap64_add_r, <- app_assoc. reflexivity.
Qed.

Lemma store_Append_buffered_witness :
  fst (store_Append (store_on faulty_file) hello) = Ok (13, 0) /\
  File (snd (store_Append (store_on faulty_file) hello)) = faulty_file.
Proof.
  rewrite (store_Append_buffered (store_on faulty_file) hello).
  - split; reflexivity.
  - reflexivity.
  - apply Nat.leb_le. vm_compute. reflexivity.
Defined.

(** A store whose writer has no error and whose file has no failing
    write ahead. *)
Lemma Flush_no_fault b f :
  bufio.werr b = None -> os.wfaults f = [] ->
  fst (fst (bufio.Flush b f)) = None /\
  bufio.werr (snd (fst (bufio.Flush b f))) = None /\
  os.wfaults (snd (bufio.Flush b f)) = [].
Proof.
  intros He Hf. unfold bufio.Flush. rewrite He.
  destruct (bufio.Buffered b =? 0)%nat; [cbn; auto|].
  unfold os.Write. rewrite Hf. unfold bufio.Buffered.
  rewrite Nat.ltb_irrefl. cbn. auto.
Qed.

Lemma Write_loop_no_fault fuel b f p nn :
  bufio.werr b = None -> os.wfaults f = [] ->
  bufio.werr (fst (fst (fst (bufio.Write_loop fuel b f p nn)))) = None /\
  os.wfaults (snd (fst (fst (bufio.Write_loop fuel b f p nn)))) = [].
Proof.
  revert b f p nn. induction fuel as [|fuel IH]; intros b f p nn He Hf.
  { cbn. auto. }
  rewrite Write_loop_eq, He.
  destruct (bufio.Available b <? length p)%nat; [|cbn; auto].
  destruct (bufio.Buffered b =? 0)%nat.
  - unfold os.Write. rewrite Hf. apply IH; reflexivity.
  - cbv zeta.
    match goal with |- context [bufio.Flush ?b1 f] =>
      pose proof (Flush_no_fault b1 f eq_refl Hf) as (_ & H2 & H3);
      destruct (bufio.Flush b1 f) as [[e b2] f2] end.
    cbn [fst snd] in H2, H3. apply IH; assumption.
Qed.

Lemma bufio_Write_no_fault b f p :
  bufio.werr b = None -> os.wfaults f = [] ->
  exists b' f',
    bufio.Write b f p = (length p, None, b', f') /\
    bufio.werr b' = None /\ os.wfaults f' = [].
Proof.
  intros He Hf.
  destruct (bufio.Write b f p) as [[[n err] b'] f'] eqn:Ew.
  pose proof (bufio_Write_spec _ _ _ _ _ _ _ Ew) as (Herr & _ & _ & Hok).
  unfold bufio.Write in Ew.
  pose proof (Write_loop_no_fault 3 b f p 0 He Hf) as (H1 & H2).
  destruct (bufio.Write_loop 3 b f p 0) as [[[b1 f1] p1] nn].
  cbn [fst snd] in H1, H2. rewrite H1 in Ew. inversion Ew; subst.
  destruct (Hok eq_refl) as (Hn & _).
  exists {| bufio.wbuf := bufio.wbuf b1 ++ firstn (Nat.min (bufio.Available b1) (length p1)) p1;
            bufio.wsize := bufio.wsize b1; bufio.werr := None |}, f'.
  rewrite Hn. auto.
Qed.

(** X5. An append fails only if a write to the file fails: with no error in
    the writer and no failing write ahead, [store.Append] succeeds, and
    leaves the store in that same condition. *)
Theorem store_Append_succeeds s p :
  bufio.werr (buf s) = None -> os.wfaults (File s) = [] ->
  fst (store_Append s p) = Ok (wrap64 (Z.of_nat (length p) + 8), size s) /\
  bufio.werr (buf (snd (store_Append s p))) = None /\
  os.wfaults (File (snd (store_Append s p))) = [].
Proof.
  intros He Hf. unfold store_Append, binary.Write.
  destruct (bufio_Write_no_fault (buf s) (File s)
              (binary.PutUint64 (wrap64 (Z.of_nat (length p)))) He Hf)
    as (b1 & f1 & E1 & He1 & Hf1).
  rewrite E1.
  destruct (bufio_Write_no_fault b1 f1 p He1 Hf1) as (b2 & f2 & E2 & He2 & Hf2).
  rewrite E2. cbn [fst snd File buf]. unfold lenWidth.
  rewrite wrap64_to_int64. auto.
Qed.

Lemma store_Append_succeeds_witness :
  fst (store_Append (store_on no_file) big_payload) = Ok (4097, 0).
Proof.
  apply (store_Append_succeeds (store_on no_file) big_payload); reflexivity.
Defined.

Lemma store_Close_Ok s ce s' :
  store_Close s ce = (None, s') ->
  fst (flushed s) = None /\ s' = snd (flushed s) /\ ce = None.
Proof.
  unfold store_Close, flushed.
  destruct (bufio.Flush (buf s) (File s)) as [[[e|] b1] f1]; intros H; inversion H; subst.
  cbn. auto.
Qed.

(** X6. Closing and reopening: after a successful [Close] the file holds
    everything that was appended, a store made by [newStore] on that file
    takes up at the same [size], an entry appended before the close is
    read back at its position, and new entries are placed behind. *)
Theorem store_Close_reopen f s0 s p n pos s1 s2 ce s3 s4 :
  newStore f = Ok s0 ->
  store_trace s0 s ->
  store_Append s p = (Ok (n, pos), s1) ->
  store_trace s1 s2 ->
  Z.of_nat (length (content s2)) < 2 ^ 63 ->
  store_Close s2 ce = (None, s3) ->
  newStore (File s3) = Ok s4 ->
  os.fdata (File s3) = content s2 /\
  size s4 = size s2 /\
  fst (store_Read s4 pos) = Ok p /\
  (forall q, fst (store_Append s4 q) = Ok (wrap64 (Z.of_nat (length q) + 8), size s2) \/
             exists e, fst (store_Append s4 q) = Err e).
Proof.
  intros Hnew Ht0 Ha Hl Hlen Hc Hre.
  assert (Hok : store_ok s).
  { apply (store_trace_ok s0 s Ht0). left. eapply newStore_inv; eassumption. }
  assert (Hi : store_inv s).
  { destruct Hok as [Hi|He]; [exact Hi|].
    destruct (bufio.werr (buf s)) as [e|] eqn:Ee; [|congruence].
    rewrite (store_Append_sticky _ _ _ Ee) in Ha. discriminate. }
  pose proof (store_Append_inv _ _ _ _ _ Ha Hi) as Hi1.
  assert (Hok2 : store_ok s2) by (apply (store_trace_ok s1 s2 Hl); left; exact Hi1).
  apply store_Close_Ok in Hc. destruct Hc as (Hfl & -> & _).
  assert (Hi2 : store_inv s2).
  { destruct Hok2 as [Hi2|He]; [exact Hi2|].
    destruct (bufio.werr (buf s2)) as [e|] eqn:Ee; [|congruence].
    rewrite (flushed_spent_same _ _ Ee) in Hfl. discriminate. }
  destruct (flushed_content s2 Hfl) as (Hd & _ & _ & Hsz).
  apply store_Append_Ok in Ha. destruct Ha as (Hpos & _ & _ & Hc1 & _).
  destruct (store_trace_content _ _ Hl) as [more Hc2].
  rewrite Hc1, <- app_assoc in Hc2.
  assert (Hlen' := Hlen). rewrite Hc2, !length_app, length_frame in Hlen'.
  apply store_inv_content in Hi. rewrite wrap64_small in Hi by lia.
  apply store_inv_content in Hi2. rewrite wrap64_small in Hi2 by lia.
  unfold newStore, os.Stat_Size in Hre.
  destruct (os.statErr (File (snd (flushed s2)))); [discriminate|].
  inversion Hre; subst s4; clear Hre.
  assert (Hsize : wrap64 (Z.of_nat (length (os.fdata (File (snd (flushed s2)))))) = size s2).
  { rewrite Hd, wrap64_small by lia. congruence. }
  split; [exact Hd|]. split; [exact Hsize|]. split.
  - match goal with |- fst (store_Read ?t pos) = _ => set (s4 := t) end.
    assert (Hc4 : content s4 = content s ++ frame p ++ more).
    { unfold content, s4. cbn. rewrite app_nil_r, Hd. exact Hc2. }
    assert (Hlen4 : Z.of_nat (length (content s4)) < 2 ^ 63) by (rewrite Hc4, <- Hc2; exact Hlen).
    replace pos with (Z.of_nat (length (content s))) by congruence.
    rewrite (store_Read_frame s4 (content s) p more Hc4 Hlen4).
    reflexivity.
  - intros q.
    match goal with |- fst (store_Append ?t q) = _ \/ _ => set (s4 := t) end.
    destruct (store_Append s4 q) as [[[n' pos']|e|] s5] eqn:Eq.
    + left. apply store_Append_Ok in Eq. destruct Eq as (-> & -> & _).
      cbn [fst]. unfold s4. cbn [size]. rewrite Hsize. reflexivity.
    + right. exists e. reflexivity.
    + exfalso. apply (store_Append_no_Panic s4 q). rewrite Eq. reflexivity.
Qed.

Lemma store_Close_reopen_witness :
  fst (store_Read
         (store_on (File (snd (store_Close (appended (store_on no_file) [hello; world]) None))))
         13) = Ok world.
Proof.
  refine (proj1 (proj2 (proj2 (store_Close_reopen no_file (store_on no_file)
    (appended (store_on no_file) [hello]) world 13 13
    (appended (store_on no_file) [hello; world])
    (appended (store_on no_file) [hello; world]) None
    (snd (store_Close (appended (store_on no_file) [hello; world]) None))
    (store_on (File (snd (store_Close (appended (store_on no_file) [hello; world]) None))))
    _ _ _ _ _ _ _)))).
  - vm_compute. reflexivity.
  - apply (trace_Append _ hello (Ok (13, 0)) (appended (store_on no_file) [hello]));
      [vm_compute; reflexivity|apply trace_refl].
  - vm_compute. reflexivity.
  - apply trace_refl.
  - vm_compute. reflexivity.
  - vm_compute. reflexivity.
  - vm_compute. reflexivity.
Defined.

(** ** The segment: failures, invariant, round trip, recovery *)

Lemma wrap32_small z : 0 <= z < 2 ^ 32 -> wrap32 z = z.
Proof. intros. unfold wrap32. apply Z.mod_small. assumption. Qed.

(** What one [segment.Append] does to the segment, whatever it returns. *)
Lemma segment_Append_step {P : proto} s r res s' r' :
  segment_Append s r = (res, s', r') ->
  baseOffset s' = baseOffset s /\ config s' = config s /\
  r' = {| Value := Value r; Offset := nextOffset s |} /\
  store_trace (s_store s) (s_store s') /\
  match res with
  | Ok off =>
      off = nextOffset s /\
      nextOffset s' = wrap64 (nextOffset s + 1) /\
      exists pos,
        entries (s_index s') =
        entries (s_index s) ++ [(wrap32 (wrap64 (nextOffset s - baseOffset s)), pos)]
  | _ => nextOffset s' = nextOffset s /\ s_index s' = s_index s
  end.
Proof.
  unfold segment_Append. intros H.
  destruct (Marshal _) as [p| |] eqn:Em.
  2,3: inversion H; subst; repeat split; auto using trace_refl.
  destruct (store_Append (s_store s) p) as [[[n pos]| |] st] eqn:Ea.
  2,3: inversion H; subst; cbn; repeat split; auto;
       eapply trace_Append; [exact Ea|apply trace_refl].
  destruct (index_Write _ _ pos) as [[e|] idx] eqn:Ew; inversion H; subst; clear H; cbn.
  - apply index_Write_fails in Ew. subst idx. repeat split; auto.
    eapply trace_Append; [exact Ea|apply trace_refl].
  - repeat split; auto.
    + eapply trace_Append; [exact Ea|apply trace_refl].
    + exists pos. unfold index_Write in Ew.
      destruct (mapped (s_index s) <? _); inversion Ew; subst. reflexivity.
Qed.

Lemma segment_Read_step {P : proto} s off res s' :
  segment_Read s off = (res, s') ->
  baseOffset s' = baseOffset s /\ config s' = config s /\
  nextOffset s' = nextOffset s /\ s_index s' = s_index s /\
  store_trace (s_store s) (s_store s').
Proof.
  unfold segment_Read. intros H.
  destruct (index_Read _ _) as [[rel pos]| |].
  2,3: inversion H; subst; repeat split; auto using trace_refl.
  destruct (store_Read (s_store s) pos) as [r st] eqn:Er.
  assert (Ht : store_trace (s_store s) st)
    by (eapply trace_Read; [exact Er|apply trace_refl]).
  destruct r; inversion H; subst; cbn; repeat split; auto.
Qed.

Lemma store_trace_trans s1 s2 s3 :
  store_trace s1 s2 -> store_trace s2 s3 -> store_trace s1 s3.
Proof.
  induction 1; intros H3; [exact H3| | |].
  - eapply trace_Append; eauto.
  - eapply trace_Read; eauto.
  - eapply trace_ReadAt; eauto.
Qed.

(** Along any calls the base offset stays, the store is used through its
    own calls, and the index only gains entries at its end. *)
Lemma seg_trace_spec {P : proto} s t :
  seg_trace s t ->
  baseOffset t = baseOffset s /\
  store_trace (s_store s) (s_store t) /\
  exists more, entries (s_index t) = entries (s_index s) ++ more.
Proof.
  induction 1 as [s | s r res s1 r' s2 Ha _ IH | s off res s1 s2 Hr _ IH].
  - repeat split; [apply trace_refl|]. exists []. rewrite app_nil_r. reflexivity.
  - destruct IH as (Hb & Ht & more & Hm).
    apply segment_Append_step in Ha. destruct Ha as (Hb1 & _ & _ & Ht1 & Hres).
    split; [congruence|]. split; [eapply store_trace_trans; eassumption|].
    destruct res as [off| |].
    + destruct Hres as (_ & _ & pos & He). eexists. rewrite Hm, He, <- app_assoc. reflexivity.
    + destruct Hres as (_ & He). exists more. rewrite Hm, He. reflexivity.
    + destruct Hres as (_ & He). exists more. rewrite Hm, He. reflexivity.
  - destruct IH as (Hb & Ht & more & Hm).
    apply segment_Read_step in Hr. destruct Hr as (Hb1 & _ & _ & Hi & Ht1).
    split; [congruence|]. split; [eapply store_trace_trans; eassumption|].
    exists more. rewrite Hm, Hi. reflexivity.
Qed.

(** X7. A [segment.Append] that returns an error has set the caller's
    [record.Offset] all the same, and has left [nextOffset], [baseOffset]
    and the index as they were; if it is the encoding that failed, the
    whole segment is untouched. *)
Theorem segment_Append_failure {P : proto} s r e s' r' :
  segment_Append s r = (Err e, s', r') ->
  Offset r' = nextOffset s /\ Value r' = Value r /\
  nextOffset s' = nextOffset s /\ baseOffset s' = baseOffset s /\
  s_index s' = s_index s /\
  (Marshal r' = Err e -> s' = s).
Proof.
  intros H. pose proof (segment_Append_step _ _ _ _ _ H) as (Hb & _ & Hr & _ & Hn & Hi).
  subst r'. cbn [Offset Value]. repeat split; auto.
  intros Hm. unfold segment_Append in H. rewrite Hm in H. inversion H. reflexivity.
Qed.

Lemma segment_Append_failure_witness :
  Offset (snd (segment_Append (P := fixed_proto)
                 (seg_appended (fresh_segment 5 (config_of 1024 12)) [hello])
                 (record_of world))) = 6 /\
  nextOffset (snd (fst (segment_Append (P := fixed_proto)
                 (seg_appended (fresh_segment 5 (config_of 1024 12)) [hello])
                 (record_of world)))) = 6.
Proof.
  pose proof (segment_Append_failure (P := fixed_proto)
    (seg_appended (fresh_segment 5 (config_of 1024 12)) [hello]) (record_of world) EOF
    (snd (fst (segment_Append (P := fixed_proto)
                 (seg_appended (fresh_segment 5 (config_of 1024 12)) [hello])
                 (record_of world))))
    (snd (segment_Append (P := fixed_proto)
                 (seg_appended (fresh_segment 5 (config_of 1024 12)) [hello])
                 (record_of world)))) as W.
  destruct W as (W1 & _ & W2 & _); [vm_compute; reflexivity|].
  split; [rewrite W1|rewrite W2]; vm_compute; reflexivity.
Defined.

Lemma nth_error_snoc {A} (l : list A) a k e :
  nth_error (l ++ [a]) k = Some e ->
  nth_error l k = Some e \/ (k = length l /\ e = a).
Proof.
  intros H. destruct (Nat.lt_ge_cases k (length l)) as [Hlt|Hge].
  - left. rewrite nth_error_app1 in H by exact Hlt. exact H.
  - right. rewrite nth_error_app2 in H by exact Hge.
    destruct (k - length l)%nat as [|j] eqn:Ek; cbn in H.
    + inversion H. split; [lia|reflexivity].
    + destruct j; discriminate.
Qed.

Lemma segment_wf_step_Append {P : proto} s r res s' r' :
  segment_Append s r = (res, s', r') ->
  segment_wf s ->
  baseOffset s + Z.of_nat (length (entries (s_index s'))) < 2 ^ 64 ->
  segment_wf s'.
Proof.
  intros Ha (Hinv & Hok & Hoff) Hb.
  apply segment_Append_step in Ha. destruct Ha as (Hb1 & _ & _ & Ht & Hres).
  destruct Hinv as (H0 & Hn & Hlt).
  assert (Hok' : store_ok (s_store s')) by (eapply store_trace_ok; eassumption).
  destruct res as [off| |].
  - destruct Hres as (_ & Hn' & pos & He).
    rewrite He, length_app in Hb. cbn [length] in Hb.
    split; [|split; [exact Hok'|]].
    + unfold segment_inv. rewrite Hb1, Hn', He, length_app. cbn [length].
      rewrite wrap64_small by lia. repeat split; lia.
    + intros k e. rewrite He. intros Hk.
      apply nth_error_snoc in Hk. destruct Hk as [Hk|(-> & ->)]; [auto|].
      cbn [fst]. rewrite Hn. f_equal.
      replace (baseOffset s + Z.of_nat (length (entries (s_index s))) - baseOffset s)
        with (Z.of_nat (length (entries (s_index s)))) by lia.
      apply wrap64_small. lia.
  - destruct Hres as (Hn' & Hi).
    split; [|split; [exact Hok'|rewrite Hi; exact Hoff]].
    unfold segment_inv. rewrite Hb1, Hn', Hi. auto.
  - destruct Hres as (Hn' & Hi).
    split; [|split; [exact Hok'|rewrite Hi; exact Hoff]].
    unfold segment_inv. rewrite Hb1, Hn', Hi. auto.
Qed.

Lemma segment_wf_step_Read {P : proto} s off res s' :
  segment_Read s off = (res, s') -> segment_wf s -> segment_wf s'.
Proof.
  intros Hr (Hinv & Hok & Hoff).
  apply segment_Read_step in Hr. destruct Hr as (Hb & _ & Hn & Hi & Ht).
  split; [|split].
  - unfold segment_inv in *. rewrite Hb, Hn, Hi. exact Hinv.
  - eapply store_trace_ok; eassumption.
  - rewrite Hi. exact Hoff.
Qed.

Lemma newSegment_fields dir base c s :
  newSegment dir base c = Ok s ->
  exists sf xf,
    OpenFile_store dir base = Ok sf /\ newStore sf = Ok (s_store s) /\
    OpenFile_index dir base = Ok xf /\ newIndex xf c = Ok (s_index s).
Proof.
  unfold newSegment, bind. intros H.
  destruct (OpenFile_store dir base) as [sf| |] eqn:E1; try discriminate.
  destruct (newStore sf) as [st| |] eqn:E2; try discriminate.
  destruct (OpenFile_index dir base) as [xf| |] eqn:E3; try discriminate.
  destruct (newIndex xf c) as [idx| |] eqn:E4; try discriminate.
  exists sf, xf.
  destruct (index_Read idx (-1)) as [[off pos]|e|]; inversion H; subst;
    cbn; repeat split; assumption.
Qed.

(** X8. The invariant of a segment: one that [newSegment] makes where there
    is no index file yet is in order, [nextOffset] being [baseOffset] plus
    the number of index entries and the k-th entry carrying relative
    offset k, and it stays in order through every [Append] and [Read],
    failed ones included, as long as the offsets stay within [uint64]. *)
Theorem segment_wf_invariant {P : proto} dir base c s t :
  newSegment dir base c = Ok s ->
  index_file dir base = None ->
  0 <= base < 2 ^ 64 ->
  seg_trace s t ->
  base + Z.of_nat (length (entries (s_index t))) < 2 ^ 64 ->
  segment_wf s /\ segment_wf t.
Proof.
  intros Hnew Hnone Hbase Ht Hb.
  assert (Hs : segment_wf s).
  { pose proof (newSegment_Ok _ _ _ _ Hnew) as (Hbs & _ & Hnx).
    destruct (newSegment_fields _ _ _ _ Hnew) as (sf & xf & _ & Hst & Hxf & Hidx).
    unfold OpenFile_index in Hxf. rewrite Hnone in Hxf.
    destruct (open_index_err dir base); [discriminate|]. inversion Hxf; subst xf.
    cbn in Hidx. inversion Hidx as [Hi]. clear Hidx.
    rewrite <- Hi in Hnx. cbn in Hnx.
    split; [|split].
    - unfold segment_inv. rewrite Hbs, Hnx, <- Hi. cbn. lia.
    - left. eapply newStore_inv; eassumption.
    - intros k e. rewrite <- Hi. cbn. destruct k; discriminate. }
  split; [exact Hs|].
  assert (Hbs : baseOffset s = base) by (apply newSegment_Ok in Hnew; tauto).
  rewrite <- Hbs in Hb. clear Hnew Hnone Hbase Hbs.
  revert Hs Hb.
  induction Ht as [s | s r res s1 r' s2 Ha Ht IH | s off res s1 s2 Hr Ht IH];
    intros Hs Hb.
  - exact Hs.
  - destruct (seg_trace_spec _ _ Ht) as (_ & _ & more & Hm).
    pose proof (segment_Append_step _ _ _ _ _ Ha) as (Hb1 & _).
    apply IH; [|rewrite Hb1; exact Hb].
    eapply segment_wf_step_Append; [exact Ha|exact Hs|].
    rewrite Hm, length_app in Hb. lia.
  - pose proof (segment_Read_step _ _ _ _ Hr) as (Hb1 & _).
    apply IH; [|rewrite Hb1; exact Hb].
    eapply segment_wf_step_Read; eassumption.
Qed.

Lemma segment_wf_invariant_witness :
  segment_wf (seg_appended (fresh_segment 5 (config_of 1024 1024)) [hello; world]).
Proof.
  refine (proj2 (segment_wf_invariant (P := fixed_proto) empty_dir 5 (config_of 1024 1024)
    (fresh_segment 5 (config_of 1024 1024))
    (seg_appended (fresh_segment 5 (config_of 1024 1024)) [hello; world]) _ _ _ _ _)).
  - vm_compute. reflexivity.
  - reflexivity.
  - lia.
  - apply (seg_trace_Append (P := fixed_proto) _ (record_of hello) (Ok 5)
             (seg_appended (fresh_segment 5 (config_of 1024 1024)) [hello])
             {| Value := hello; Offset := 5 |}); [vm_compute; reflexivity|].
    apply (seg_trace_Append (P := fixed_proto) _ (record_of world) (Ok 6)
             (seg_appended (fresh_segment 5 (config_of 1024 1024)) [hello; world])
             {| Value := world; Offset := 6 |}); [vm_compute; reflexivity|].
    apply seg_trace_refl.
  - vm_compute. reflexivity.
Defined.

Lemma index_Write_Ok i off pos i' :
  index_Write i off pos = (None, i') ->
  entries i' = entries i ++ [(off, pos)] /\ mapped i' = mapped i /\
  index_size i + entWidth <= mapped i.
Proof.
  unfold index_Write.
  destruct (Z.ltb_spec (mapped i) (index_size i + entWidth)) as [Hlt|Hge];
    intros Hw; inversion Hw; subst.
  cbn. auto.
Qed.

Lemma index_Read_nth i k e :
  nth_error (entries i) k = Some e ->
  Z.of_nat k < 2 ^ 63 ->
  index_Read i (Z.of_nat k) = Ok e.
Proof.
  intros Hk Hlt. unfold index_Read.
  destruct (Z.eqb_spec (Z.of_nat k) (-1)); [lia|].
  assert (Hlen : (k < length (entries i))%nat)
    by (apply nth_error_Some; congruence).
  destruct (Z.leb_spec 0 (Z.of_nat k)); [|lia].
  destruct (Z.ltb_spec (Z.of_nat k) (Z.of_nat (length (entries i)))); [|lia].
  cbn [andb]. rewrite Nat2Z.id, Hk. reflexivity.
Qed.

(** X9. Segment round trip: in a segment that is in order, a record that
    [Append] has accepted at [off] is returned by [Read off], with the
    payload it had and with [Offset = off], after any further calls, given
    that decoding undoes encoding on that record; only the flush that
    begins the store read can make the read fail. *)
Theorem segment_roundtrip {P : proto} s r off s1 r' s2 :
  segment_wf s ->
  mapped (s_index s) < 2 ^ 64 ->
  segment_Append s r = (Ok off, s1, r') ->
  seg_trace s1 s2 ->
  (forall p, Marshal r' = Ok p -> Unmarshal p = Ok r') ->
  Z.of_nat (length (content (s_store s2))) < 2 ^ 63 ->
  Value r' = Value r /\ Offset r' = off /\
  fst (segment_Read s2 off) =
    match fst (flushed (s_store s2)) with None => Ok r' | Some e => Err e end.
Proof.
  intros ((H0 & Hn & Hlt) & Hok & _) Hmap Ha Ht Hcodec Hlen.
  apply segment_Append_Ok in Ha.
  destruct Ha as (Hr & Hoff & _ & Hb1 & p & n & pos & Hm & Hsa & Hw).
  split; [rewrite Hr; reflexivity|]. split; [rewrite Hr, Hoff; reflexivity|].
  assert (Hi : store_inv (s_store s)).
  { destruct Hok as [Hi|He]; [exact Hi|].
    destruct (bufio.werr (buf (s_store s))) as [e|] eqn:Ee; [|congruence].
    rewrite (store_Append_sticky _ _ _ Ee) in Hsa. discriminate. }
  apply index_Write_Ok in Hw. destruct Hw as (He1 & _ & Hcap).
  destruct (seg_trace_spec _ _ Ht) as (Hb2 & Hst & more & He2).
  apply store_Append_Ok in Hsa. destruct Hsa as (Hpos & _ & _ & Hc1 & _).
  destruct (store_trace_content _ _ Hst) as [bytes Hc2].
  rewrite Hc1, <- app_assoc in Hc2.
  assert (Hlen' := Hlen). rewrite Hc2, !length_app, length_frame in Hlen'.
  apply store_inv_content in Hi. rewrite wrap64_small in Hi by lia.
  set (k := length (entries (s_index s))) in *.
  assert (Hk : Z.of_nat k < 2 ^ 63).
  { unfold index_size, entWidth in Hcap. lia. }
  assert (Hnth : nth_error (entries (s_index s2)) k =
                 Some (wrap32 (wrap64 (nextOffset s - baseOffset s)), pos)).
  { rewrite He2, He1, <- app_assoc. rewrite nth_error_app2 by (unfold k; lia).
    unfold k. rewrite Nat.sub_diag. reflexivity. }
  unfold segment_Read.
  replace (to_int64 (wrap64 (off - baseOffset s2))) with (Z.of_nat k).
  2:{ rewrite Hb2, Hb1, Hoff, Hn.
      replace (baseOffset s + Z.of_nat k - baseOffset s) with (Z.of_nat k) by lia.
      rewrite wrap64_small by lia. rewrite to_int64_small by lia. reflexivity. }
  rewrite (index_Read_nth _ _ _ Hnth Hk).
  assert (Hrd : fst (store_Read (s_store s2) pos) =
                match fst (flushed (s_store s2)) with None => Ok p | Some e => Err e end).
  { replace pos with (Z.of_nat (length (content (s_store s)))) by congruence.
    apply (store_Read_frame (s_store s2) (content (s_store s)) p bytes Hc2 Hlen). }
  destruct (store_Read (s_store s2) pos) as [res st]. cbn [fst] in Hrd. subst res.
  destruct (fst (flushed (s_store s2))); [reflexivity|].
  cbn [fst]. apply Hcodec. exact Hm.
Qed.

Lemma fixed_proto_law r p :
  0 <= Offset r < 2 ^ 64 ->
  fixed_Marshal r = Ok p -> fixed_Unmarshal p = Ok r.
Proof.
  intros Ho H. unfold fixed_Marshal in H. inversion H; subst p; clear H.
  pose proof (Uint64_PutUint64 (Offset r) Ho) as Hu.
  unfold fixed_Unmarshal. unfold binary.PutUint64 in *.
  cbn [app length Nat.ltb Nat.leb firstn skipn].
  rewrite Hu. destruct r; reflexivity.
Qed.

Lemma segment_roundtrip_witness :
  fst (segment_Read (P := fixed_proto)
         (seg_appended (fresh_segment 5 (config_of 1024 1024)) [hello; world]) 5)
  = Ok {| Value := hello; Offset := 5 |}.
Proof.
  refine (proj2 (proj2 (segment_roundtrip (P := fixed_proto)
    (fresh_segment 5 (config_of 1024 1024)) (record_of hello) 5
    (seg_appended (fresh_segment 5 (config_of 1024 1024)) [hello])
    {| Value := hello; Offset := 5 |}
    (seg_appended (fresh_segment 5 (config_of 1024 1024)) [hello; world]) _ _ _ _ _ _))).
  - split; [|split].
    + vm_compute. repeat split; congruence.
    + left. vm_compute. reflexivity.
    + intros k e. cbn. destruct k; discriminate.
  - reflexivity.
  - vm_compute. reflexivity.
  - apply (seg_trace_Append (P := fixed_proto) _ (record_of world) (Ok 6)
             (seg_appended (fresh_segment 5 (config_of 1024 1024)) [hello; world])
             {| Value := world; Offset := 6 |}); [vm_compute; reflexivity|].
    apply seg_trace_refl.
  - intros p. apply (fixed_proto_law {| Value := hello; Offset := 5 |}). cbn. lia.
  - vm_compute. reflexivity.
Defined.

Lemma rev_head_last {A} (l : list A) e rest :
  rev l = e :: rest -> nth_error l (length l - 1) = Some e /\ (0 < length l)%nat.
Proof.
  intros H. assert (Hl : l = rev rest ++ [e]).
  { rewrite <- (rev_involutive l), H. reflexivity. }
  subst l. rewrite length_app. cbn [length].
  rewrite nth_error_app2 by lia.
  replace (length (rev rest) + 1 - 1 - length (rev rest))%nat with 0%nat by lia.
  split; [reflexivity|lia].
Qed.

(** X10. Recovery on open: reopening a segment that is in order, on the index
    file that holds its entries, recovers its [nextOffset] (and its
    entries), provided the segment has at most 2^32 records, the range of
    the relative offset of an entry. *)
Theorem newSegment_recovers dir c s s' :
  segment_wf s ->
  Z.of_nat (length (entries (s_index s))) <= 2 ^ 32 ->
  index_file dir (baseOffset s) = Some {| ients := entries (s_index s); mapErr := None |} ->
  newSegment dir (baseOffset s) c = Ok s' ->
  nextOffset s' = nextOffset s /\
  baseOffset s' = baseOffset s /\
  entries (s_index s') = entries (s_index s).
Proof.
  intros ((H0 & Hn & Hlt) & _ & Hoffs) Hcnt Hfile Hnew.
  pose proof (newSegment_Ok _ _ _ _ Hnew) as (Hb & _ & Hnx).
  destruct (newSegment_fields _ _ _ _ Hnew) as (sf & xf & _ & _ & Hxf & Hidx).
  unfold OpenFile_index in Hxf. rewrite Hfile in Hxf.
  destruct (open_index_err dir (baseOffset s)); [discriminate|].
  injection Hxf as <-. cbn in Hidx. injection Hidx as Hi.
  assert (He : entries (s_index s') = entries (s_index s)) by (rewrite <- Hi; reflexivity).
  split; [|split; [exact Hb|exact He]].
  unfold index_Read in Hnx. cbn [Z.eqb] in Hnx. rewrite He in Hnx.
  destruct (rev (entries (s_index s))) as [|[off pos] rest] eqn:Er.
  - assert (Hnil : entries (s_index s) = []).
    { rewrite <- (rev_involutive (entries (s_index s))), Er. reflexivity. }
    rewrite Hnx, Hn, Hnil. cbn. lia.
  - apply rev_head_last in Er. destruct Er as (Hlast & Hpos).
    apply Hoffs in Hlast. cbn [fst] in Hlast.
    rewrite Hnx, Hlast, Hn, wrap32_small by lia.
    rewrite wrap64_small by lia. lia.
Qed.

Lemma newSegment_recovers_witness :
  newSegment two_record_dir 5 (config_of 1024 1024) = Ok reopened_segment /\
  nextOffset reopened_segment =
    nextOffset (seg_appended (fresh_segment 5 (config_of 1024 1024)) [hello; world]).
Proof.
  split; [vm_compute; reflexivity|].
  refine (proj1 (newSegment_recovers two_record_dir (config_of 1024 1024)
    (seg_appended (fresh_segment 5 (config_of 1024 1024)) [hello; world])
    reopened_segment _ _ _ _)).
  - split; [|split].
    + vm_compute. repeat split; congruence.
    + left. vm_compute. reflexivity.
    + intros k e. destruct k as [|[|k]]; cbn; intros H; inversion H; try reflexivity.
      destruct k; discriminate.
  - vm_compute. discriminate.
  - vm_compute. reflexivity.
  - vm_compute. reflexivity.
Defined.

(** X11. A segment without records has nothing to read: every offset, the one
    below [baseOffset] included, gets the not-found error. *)
Theorem segment_Read_empty {P : proto} s off :
  entries (s_index s) = [] ->
  segment_Read s off = (Err ErrNotFound, s).
Proof.
  intros He. unfold segment_Read, index_Read. rewrite He. cbn [rev length].
  destruct (_ =? -1); [reflexivity|].
  destruct (0 <=? _); cbn [andb]; [|reflexivity].
  destruct (_ <? Z.of_nat 0) eqn:E; [|reflexivity].
  rewrite nth_error_nil. reflexivity.
Qed.

Lemma segment_Read_empty_witness :
  segment_Read (P := fixed_proto) (fresh_segment 5 (config_of 1024 1024)) 4 =
  (Err ErrNotFound, fresh_segment 5 (config_of 1024 1024)).
Proof.
  apply (segment_Read_empty (P := fixed_proto)). reflexivity.
Defined.

(** X12. Once maxed, a segment stays maxed: a successful [Append] only makes
    the store and the index larger (while the store's size stays a
    [uint64]). *)
Theorem segment_IsMaxed_stays {P : proto} s r off s' r' :
  segment_IsMaxed s = true ->
  segment_Append s r = (Ok off, s', r') ->
  store_inv (s_store s) ->
  Z.of_nat (length (content (s_store s'))) < 2 ^ 64 ->
  segment_IsMaxed s' = true.
Proof.
  intros Hmax Ha Hi Hlen.
  pose proof (segment_Append_step _ _ _ _ _ Ha) as (_ & Hc & _).
  apply segment_Append_Ok in Ha.
  destruct Ha as (_ & _ & _ & _ & p & n & pos & _ & Hsa & Hw).
  pose proof (store_Append_inv _ _ _ _ _ Hsa Hi) as Hi'.
  apply store_Append_Ok in Hsa. destruct Hsa as (_ & _ & _ & Hc1 & _).
  apply index_Write_Ok in Hw. destruct Hw as (He & _).
  apply store_inv_content in Hi. apply store_inv_content in Hi'.
  rewrite wrap64_small in Hi' by lia.
  rewrite Hc1, length_app in Hlen, Hi'.
  rewrite wrap64_small in Hi by lia.
  unfold segment_IsMaxed in *. rewrite Hc.
  apply orb_true_iff in Hmax. apply orb_true_iff.
  destruct Hmax as [Hm|Hm]; apply Z.leb_le in Hm; [left|right]; apply Z.leb_le.
  - lia.
  - unfold index_size, entWidth in *. rewrite He, length_app. cbn [length]. lia.
Qed.

Lemma segment_IsMaxed_stays_witness :
  segment_IsMaxed (seg_appended (fresh_segment 0 (config_of 20 1024)) [hello; world]) = true.
Proof.
  apply (segment_IsMaxed_stays (P := fixed_proto)
    (seg_appended (fresh_segment 0 (config_of 20 1024)) [hello]) (record_of world) 1
    (seg_appended (fresh_segment 0 (config_of 20 1024)) [hello; world])
    {| Value := world; Offset := 1 |}); vm_compute; reflexivity.
Defined.

(** ** [nearestMultiple]: the other inputs *)

(** X13. On every pair of [uint64] operands [nearestMultiple] panics when the
    step is 0 and otherwise returns [j - j mod k]; so the result is less
    than one step below [j], is a fixed point, and grows with [j]. *)
Theorem nearestMultiple_cases j j' k :
  0 <= j < 2 ^ 64 -> 0 <= k < 2 ^ 64 -> j <= j' < 2 ^ 64 ->
  nearestMultiple j k = (if k =? 0 then Panic else Ok (j - j mod k)) /\
  (k <> 0 ->
   j - k < j - j mod k <= j /\
   nearestMultiple (j - j mod k) k = Ok (j - j mod k) /\
   j - j mod k <= j' - j' mod k).
Proof.
  intros Hj Hk Hj'.
  assert (Hform : forall a, 0 <= a < 2 ^ 64 ->
            nearestMultiple a k = if k =? 0 then Panic else Ok (a - a mod k)).
  { intros a Ha. unfold nearestMultiple.
    destruct (Z.leb_spec 0 a); [|lia].
    destruct (Z.eqb_spec k 0); [reflexivity|].
    pose proof (Z.mod_pos_bound a k ltac:(lia)).
    rewrite Z.mod_eq by lia.
    replace (a - (a - k * (a / k))) with (a / k * k) by lia.
    rewrite wrap64_small; [reflexivity|].
    pose proof (Z.mul_div_le a k ltac:(lia)).
    assert (0 <= a / k) by (apply Z.div_pos; lia). nia. }
  split; [apply Hform; exact Hj|].
  intros Hk0.
  pose proof (Z.mod_pos_bound j k ltac:(lia)) as Hm.
  pose proof (Z.mod_pos_bound j' k ltac:(lia)) as Hm'.
  pose proof (Z.mod_le j k ltac:(lia) ltac:(lia)) as Hle.
  split; [lia|]. split.
  - rewrite Hform by lia.
    destruct (Z.eqb_spec k 0); [contradiction|].
    f_equal.
    assert (Hz : (j - j mod k) mod k = 0).
    { rewrite Zminus_mod_idemp_r, Z.sub_diag. apply Z.mod_0_l. exact Hk0. }
    rewrite Hz. lia.
  - rewrite !Z.mod_eq by lia.
    replace (j - (j - k * (j / k))) with (k * (j / k)) by lia.
    replace (j' - (j' - k * (j' / k))) with (k * (j' / k)) by lia.
    apply Z.mul_le_mono_nonneg_l; [lia|]. apply Z.div_le_mono; lia.
Qed.

Lemma nearestMultiple_cases_witness :
  nearestMultiple 1000 0 = Panic /\ nearestMultiple 960 64 = Ok 960.
Proof.
  split.
  - apply (nearestMultiple_cases 1000 1000 0); lia.
  - apply (proj2 (nearestMultiple_cases 1000 1000 64 ltac:(lia) ltac:(lia) ltac:(lia))). lia.
Defined.
